(** * rickandmortyapi-service: the Express handlers of [src/index.ts]

    A shallow embedding of the two routes ([GET /search], [GET /top-pairs])
    and of the helpers they call ([searchResource], [getAllCharacters]),
    followed by the properties of the pair computation, the ranking, the
    parameter validation and the error handling.

    Conventions of the embedding.
    - A JavaScript string is a [string] of bytes (its UTF-8 encoding).
    - A JavaScript number is a [number]: [NaN], the two infinities, or a
      finite value.  Every finite number the handlers compute with is an
      integer (a character id, an array length, the result of
      [Number.parseInt]), so a finite number carries a [Z].  Rounding of
      integers above 2^53 to the nearest double is not modelled; overflow
      to [Infinity] is.
    - [fetch] is a function from the requested URL to what the upstream
      answered during the request; every call is recorded in a trace.
    - [console.error] writes server-side diagnostics only and is left out. *)

From Stdlib Require Import ZArith Ascii String.
From stdpp Require Import base decidable list gmap strings sorting.

Local Open Scope Z_scope.
#[local] Set Warnings "-clear-no-such-hyp".

(** ** Numbers *)

Inductive number : Type :=
  | NaN
  | Infinity
  | NegInfinity
  | Finite (z : Z).

#[global] Instance number_eq_dec : EqDecision number.
Proof. solve_decision. Defined.

(** [Number.isFinite] *)
Definition isFinite (n : number) : bool :=
  match n with
  | Finite _ => true
  | _ => false
  end.

(** [a < b] on numbers: false as soon as one side is [NaN]. *)
Definition number_lt (a b : number) : bool :=
  match a, b with
  | NaN, _ | _, NaN => false
  | _, NegInfinity => false
  | NegInfinity, _ => true
  | Infinity, _ => false
  | Finite _, Infinity => true
  | Finite x, Finite y => x <? y
  end.

(** [a <= b] on numbers. *)
Definition number_le (a b : number) : bool :=
  match a, b with
  | NaN, _ | _, NaN => false
  | NegInfinity, _ => true
  | _, Infinity => true
  | _, NegInfinity => false
  | Infinity, Finite _ => false
  | Finite x, Finite y => x <=? y
  end.

(** [a >= b] on numbers. *)
Definition number_ge (a b : number) : bool := number_le b a.

(** The least integer magnitude that the conversion to a double sends to
    an infinity: half an ulp above the largest finite double. *)
Definition OVERFLOW : Z := 2 ^ 1024 - 2 ^ 970.

(** The number value of a mathematical integer. *)
Definition toNumber (z : Z) : number :=
  if Z.abs z <? OVERFLOW then Finite z
  else if z <? 0 then NegInfinity else Infinity.

(** ** [Number.parseInt(s, 10)] *)

(** White space and line terminators, which [parseInt] skips at the start
    of its input.  Those of one byte: TAB, LF, VT, FF, CR and SP. *)
Definition isWhiteSpace (c : ascii) : bool :=
  let n := nat_of_ascii c in
  ((9 <=? n) && (n <=? 13))%nat || (n =? 32)%nat.

(** Of two bytes: U+00A0. *)
Definition isWhiteSpace2 (c1 c2 : ascii) : bool :=
  ((nat_of_ascii c1 =? 194) && (nat_of_ascii c2 =? 160))%nat.

(** Of three bytes: U+1680, U+2000 to U+200A, U+2028, U+2029, U+202F,
    U+205F, U+3000 and U+FEFF. *)
Definition isWhiteSpace3 (c1 c2 c3 : ascii) : bool :=
  let n2 := nat_of_ascii c2 in
  let n3 := nat_of_ascii c3 in
  match nat_of_ascii c1 with
  | 225 => (n2 =? 154) && (n3 =? 128)
  | 226 =>
      ((n2 =? 128)
       && (((128 <=? n3) && (n3 <=? 138)) || (n3 =? 168) || (n3 =? 169) || (n3 =? 175)))
      || ((n2 =? 129) && (n3 =? 159))
  | 227 => (n2 =? 128) && (n3 =? 128)
  | 239 => (n2 =? 187) && (n3 =? 191)
  | _ => false
  end%nat.

Definition isDigit (c : ascii) : bool :=
  let n := nat_of_ascii c in
  ((48 <=? n) && (n <=? 57))%nat.

Definition digitValue (c : ascii) : Z := Z.of_nat (nat_of_ascii c) - 48.

Fixpoint trimStart (s : string) : string :=
  match s with
  | String c1 s1 =>
      if isWhiteSpace c1 then trimStart s1
      else
        match s1 with
        | String c2 s2 =>
            if isWhiteSpace2 c1 c2 then trimStart s2
            else
              match s2 with
              | String c3 s3 => if isWhiteSpace3 c1 c2 c3 then trimStart s3 else s
              | EmptyString => s
              end
        | EmptyString => s
        end
  | EmptyString => s
  end.

(** The longest prefix of decimal digits. *)
Fixpoint digitsPrefix (s : string) : string :=
  match s with
  | String c s' => if isDigit c then String c (digitsPrefix s') else EmptyString
  | EmptyString => EmptyString
  end.

(** The integer that decimal digits denote, after the digits in [acc]. *)
Fixpoint mathInt (acc : Z) (digits : string) : Z :=
  match digits with
  | String c s' => mathInt (10 * acc + digitValue c) s'
  | EmptyString => acc
  end.

Definition parseInt (input : string) : number :=
  let trimmed := trimStart input in
  let '(sign, unsigned) :=
    match trimmed with
    | String "-" rest => (-1, rest)
    | String "+" rest => (1, rest)
    | _ => (1, trimmed)
    end in
  let digits := digitsPrefix unsigned in
  match digits with
  | EmptyString => NaN
  | _ => toNumber (sign * mathInt 0 digits)
  end.

(** ** [encodeURIComponent] *)

Definition isUnreserved (c : ascii) : bool :=
  let n := nat_of_ascii c in
  (((65 <=? n) && (n <=? 90)) || ((97 <=? n) && (n <=? 122)) || isDigit c
   || bool_decide (c ∈ ["-"; "_"; "."; "!"; "~"; "*"; "'"; "("; ")"]%char))%nat.

Definition hexDigit (n : nat) : ascii :=
  if (n <? 10)%nat then ascii_of_nat (48 + n) else ascii_of_nat (55 + n).

Fixpoint encodeURIComponent (s : string) : string :=
  match s with
  | EmptyString => EmptyString
  | String c s' =>
      if isUnreserved c then String c (encodeURIComponent s')
      else
        let n := nat_of_ascii c in
        String "%" (String (hexDigit (n / 16)) (String (hexDigit (n mod 16))
          (encodeURIComponent s')))
  end.

(** ** Arrays *)

(** [array.forEach(callback)] where the callback updates a state [S]
    (here always the array it pushes to). *)
Definition forEach {A S : Type} (array : list A) (callback : A → S → S) (s : S) : S :=
  foldl (λ s a, callback a s) s array.

(** [array.push(x)] *)
Definition push {A : Type} (x : A) (array : list A) : list A := array ++ [x].

(** [array.sort(comparefn)]: the stable sort of ECMAScript 2019; an element
    stays in front of another one unless [comparefn] is positive on them.
    It is computed by insertion; for a comparator that subtracts keys, every
    stable sort returns the same array (lemma [sort_unique]). *)
Fixpoint insert {A : Type} (comparefn : A → A → Z) (x : A) (sorted : list A) : list A :=
  match sorted with
  | [] => [x]
  | y :: rest =>
      if comparefn x y <=? 0 then x :: y :: rest
      else y :: insert comparefn x rest
  end.

Fixpoint sort {A : Type} (comparefn : A → A → Z) (array : list A) : list A :=
  match array with
  | [] => []
  | x :: rest => insert comparefn x (sort comparefn rest)
  end.

(** [array.slice(0, end)] *)
Definition slice0 {A : Type} (end_ : number) (array : list A) : list A :=
  match end_ with
  | NaN | NegInfinity => []
  | Infinity => array
  | Finite z =>
      if z <? 0 then take (Z.to_nat (Z.max (Z.of_nat (length array) + z) 0)) array
      else take (Z.to_nat z) array
  end.

(** ** Data model *)

(** An object of an upstream [results] array.  The interfaces [Location]
    and [Episode] list a part of the fields of [Character]; the handlers
    read [name] and [url] of every resource and [id] and [episode] only of
    the resources of the character collection, so one record carries the
    three of them. *)
Module Character.
Record t : Type := mk {
  id : Z;
  name : string;
  type : string;
  url : string;
  episode : list string
}.
End Character.

(** The literal type ['character' | 'location' | 'episode']. *)
Module ResourceType.
Inductive t : Type := character | location | episode.
End ResourceType.

Module SearchResult.
Record t : Type := mk {
  name : string;
  type : ResourceType.t;
  url : string
}.
End SearchResult.

(** The [{name, url}] objects of a pair. *)
Module CharacterRef.
Record t : Type := mk {
  name : string;
  url : string
}.
End CharacterRef.

Module CharacterPair.
Record t : Type := mk {
  character1 : CharacterRef.t;
  character2 : CharacterRef.t;
  episodes : Z
}.
End CharacterPair.

(** The elements of [charactersWithEpisodes]. *)
Module WithEpisodes.
Record t : Type := mk {
  id : Z;
  name : string;
  url : string;
  episodes : list string
}.
End WithEpisodes.

Module ApiResponse.
Record info_t : Type := mk_info {
  count : Z;
  pages : Z;
  next : option string;
  prev : option string
}.
(** [results] is [None] when the body has no (or a falsy) [results]. *)
Record t : Type := mk {
  info : info_t;
  results : option (list Character.t)
}.
End ApiResponse.

#[global] Instance Character_eq_dec : EqDecision Character.t.
Proof. solve_decision. Defined.
#[global] Instance ResourceType_eq_dec : EqDecision ResourceType.t.
Proof. solve_decision. Defined.
#[global] Instance SearchResult_eq_dec : EqDecision SearchResult.t.
Proof. solve_decision. Defined.
#[global] Instance CharacterRef_eq_dec : EqDecision CharacterRef.t.
Proof. solve_decision. Defined.
#[global] Instance CharacterPair_eq_dec : EqDecision CharacterPair.t.
Proof. solve_decision. Defined.
#[global] Instance WithEpisodes_eq_dec : EqDecision WithEpisodes.t.
Proof. solve_decision. Defined.

(** ** The upstream *)

(** What [response.json()] gives: a parsed body, or a rejection. *)
Inductive Body : Type :=
  | SyntaxError (message : string)
  | Parsed (data : ApiResponse.t).

Module Response.
Record t : Type := mk {
  status : Z;
  statusText : string;
  json : Body
}.
(** [response.ok] *)
Definition ok (response : t) : bool :=
  (200 <=? status response) && (status response <=? 299).
End Response.

(** What [await fetch(url)] gives: a response, or a rejection (network). *)
Inductive Fetched : Type :=
  | Rejected (message : string)
  | Resolved (response : Response.t).

(** ** Effects *)

(** A computation returns a value and the URLs it fetched, in order. *)
Definition IO (A : Type) : Type := (A * list string)%type.

#[global] Instance IO_ret : MRet IO := λ A a, (a, []).

#[global] Instance IO_bind : MBind IO := λ A B k m,
  let '(a, t1) := m in
  let '(b, t2) := k a in
  (b, t1 ++ t2).

(** The completion of a [try] block. *)
Inductive Completion (A : Type) : Type :=
  | Throw (message : string)
  | Return (value : A).
Arguments Throw {A} message.
Arguments Return {A} value.

Definition catch {A : Type} (block : Completion A) (handler : string → A) : A :=
  match block with
  | Throw message => handler message
  | Return value => value
  end.

(** ** Requests and replies *)

(** [req.query]: the parameters that the handlers read, [None] when the
    parameter is absent ([undefined]). *)
Module Query.
Record t : Type := mk {
  term : option string;
  min : option string;
  max : option string;
  limit : option string
}.
End Query.

(** What a handler sends: [res.status(code).json(body)]; [res.json(body)]
    sends code 200. *)
Module Reply.
Inductive body_t : Type :=
  | Error (error : string)
  | SearchResults (results : list SearchResult.t)
  | Pairs (pairs : list CharacterPair.t).
Record t : Type := mk {
  status : Z;
  body : body_t
}.
End Reply.

(** Truthiness of a number. *)
Definition truthy (n : number) : bool :=
  match n with
  | NaN | Finite 0 => false
  | _ => true
  end.

(** ** The service *)

Definition BASE_URL : string := "https://rickandmortyapi.com/api".

Section Service.

(** The upstream during one request. *)
Variable upstream : string → Fetched.

(** [await fetch(url)] *)
Definition fetch (url : string) : IO Fetched := (upstream url, [url]).

(** The [try] block of [searchResource]; its [catch] returns []. *)
Definition searchResource_try (resourceType : string) (fetched : Fetched)
    : Completion (list Character.t) :=
  match fetched with
  | Rejected message => Throw message
  | Resolved response =>
      if Response.status response =? 404 then Return []
      else if negb (Response.ok response) then
        Throw ("Failed to fetch " +:+ resourceType +:+ ": " +:+ Response.statusText response)
      else
        match Response.json response with
        | SyntaxError message => Throw message
        | Parsed data => Return (default [] (ApiResponse.results data))
        end
  end.

Definition searchResource (resourceType searchTerm : string) : IO (list Character.t) :=
  fetched ← fetch (BASE_URL +:+ "/" +:+ resourceType +:+ "/?name="
                   +:+ encodeURIComponent searchTerm);
  mret (catch (searchResource_try resourceType fetched) (λ _, [])).

(** The [try] block of [getAllCharacters]; its [catch] returns [] too. *)
Definition getAllCharacters_try (fetched : Fetched) : Completion (list Character.t) :=
  match fetched with
  | Rejected message => Throw message
  | Resolved response =>
      if Response.status response =? 404 then Return []
      else if negb (Response.ok response) then
        Throw ("Failed to fetch charactes: " +:+ Response.statusText response)
      else
        match Response.json response with
        | SyntaxError message => Throw message
        | Parsed data => Return (default [] (ApiResponse.results data))
        end
  end.

Definition getAllCharacters : IO (list Character.t) :=
  fetched ← fetch (BASE_URL +:+ "/character/");
  mret (catch (getAllCharacters_try fetched) (λ _, [])).

(** *** [GET /search] *)

Definition search_try (searchTerm : string) (limit : option number)
    : IO (Completion Reply.t) :=
  characters ← searchResource "character" searchTerm;
  locations ← searchResource "location" searchTerm;
  episodes ← searchResource "episode" searchTerm;
  let results : list SearchResult.t := [] in
  let results :=
    forEach characters (λ character,
      push (SearchResult.mk (Character.name character) ResourceType.character
                            (Character.url character))) results in
  let results :=
    forEach locations (λ location,
      push (SearchResult.mk (Character.name location) ResourceType.location
                            (Character.url location))) results in
  let results :=
    forEach episodes (λ episode,
      push (SearchResult.mk (Character.name episode) ResourceType.episode
                            (Character.url episode))) results in
  let limitedResults :=
    match limit with
    | Some limit => if truthy limit then slice0 limit results else results
    | None => results
    end in
  mret (Return (Reply.mk 200 (Reply.SearchResults limitedResults))).

Definition search (query : Query.t) : IO Reply.t :=
  let limitRaw := Query.limit query in
  match Query.term query with
  | None | Some EmptyString =>
      mret (Reply.mk 400 (Reply.Error "Missing 'term' query parameter"))
  | Some searchTerm =>
      let limit := parseInt <$> limitRaw in
      if match limit with
         | Some limit => negb (isFinite limit) || number_le limit (Finite 0)
         | None => false
         end
      then mret (Reply.mk 400
                  (Reply.Error "Query parameter 'limit' must be a positive integer"))
      else
        completion ← search_try searchTerm limit;
        mret (catch completion
                (λ _, Reply.mk 500 (Reply.Error "Internal server error")))
  end.

(** *** [GET /top-pairs] *)

Definition charactersWithEpisodes (allCharacters : list Character.t)
    : list WithEpisodes.t :=
  forEach allCharacters (λ character,
    push (WithEpisodes.mk (Character.id character) (Character.name character)
                          (Character.url character) (Character.episode character)))
    [].

Definition commonEpisodes (character1 character2 : WithEpisodes.t) : list string :=
  let characterBEpisodeSet : gset string :=
    list_to_set (WithEpisodes.episodes character2) in
  List.filter (λ ep, bool_decide (ep ∈ characterBEpisodeSet))
              (WithEpisodes.episodes character1).

Definition pairOf (character1 character2 : WithEpisodes.t) : CharacterPair.t :=
  CharacterPair.mk
    (CharacterRef.mk (WithEpisodes.name character1) (WithEpisodes.url character1))
    (CharacterRef.mk (WithEpisodes.name character2) (WithEpisodes.url character2))
    (Z.of_nat (length (commonEpisodes character1 character2))).

Definition charactersPairs (charactersWithEpisodes : list WithEpisodes.t)
    : list CharacterPair.t :=
  forEach charactersWithEpisodes (λ character1,
    forEach charactersWithEpisodes (λ character2 charactersPairs,
      if WithEpisodes.id character1 <? WithEpisodes.id character2 then
        if (0 <? length (commonEpisodes character1 character2))%nat then
          push (pairOf character1 character2) charactersPairs
        else charactersPairs
      else charactersPairs))
    [].

Definition sortedPairs (charactersPairs : list CharacterPair.t) : list CharacterPair.t :=
  sort (λ a b, CharacterPair.episodes b - CharacterPair.episodes a) charactersPairs.

Definition filteredPairs (minEpisodes maxEpisodes : number)
    (sortedPairs : list CharacterPair.t) : list CharacterPair.t :=
  List.filter (λ pair,
      number_ge (Finite (CharacterPair.episodes pair)) minEpisodes
      && number_le (Finite (CharacterPair.episodes pair)) maxEpisodes)
    sortedPairs.

Definition top_pairs_try (minEpisodes maxEpisodes limit : number)
    : IO (Completion Reply.t) :=
  allCharacters ← getAllCharacters;
  let charactersWithEpisodes := charactersWithEpisodes allCharacters in
  let charactersPairs := charactersPairs charactersWithEpisodes in
  let sortedPairs := sortedPairs charactersPairs in
  let filteredPairs := filteredPairs minEpisodes maxEpisodes sortedPairs in
  let limitedResults := slice0 limit filteredPairs in
  mret (Return (Reply.mk 200 (Reply.Pairs limitedResults))).

Definition top_pairs (query : Query.t) : IO Reply.t :=
  let minEpisodesRaw := Query.min query in
  let maxEpisodesRaw := Query.max query in
  let limitRaw := Query.limit query in
  let minEpisodes := default (Finite 0) (parseInt <$> minEpisodesRaw) in
  if bool_decide (minEpisodesRaw ≠ None)
     && (negb (isFinite minEpisodes) || number_lt minEpisodes (Finite 0))
  then mret (Reply.mk 400
              (Reply.Error "Query parameter 'min' must be a non-negative integer"))
  else
  let maxEpisodes := default Infinity (parseInt <$> maxEpisodesRaw) in
  if bool_decide (maxEpisodesRaw ≠ None)
     && (negb (isFinite maxEpisodes) || number_lt maxEpisodes (Finite 0))
  then mret (Reply.mk 400
              (Reply.Error "Query parameter 'max' must be a non-negative integer"))
  else
  let limit := default (Finite 20) (parseInt <$> limitRaw) in
  if bool_decide (limitRaw ≠ None)
     && (negb (isFinite limit) || number_le limit (Finite 0))
  then mret (Reply.mk 400
              (Reply.Error "Query parameter 'limit' must be a positive integer"))
  else
    completion ← top_pairs_try minEpisodes maxEpisodes limit;
    mret (catch completion
            (λ _, Reply.mk 500 (Reply.Error "Internal server error"))).

End Service.

(** ** Notions used by the statements *)

(** Two characters for which the loops of [charactersPairs] push a pair. *)
Definition emits (character1 character2 : WithEpisodes.t) : Prop :=
  WithEpisodes.id character1 < WithEpisodes.id character2
  ∧ (0 < length (commonEpisodes character1 character2))%nat.

#[global] Instance emits_dec c1 c2 : Decision (emits c1 c2).
Proof. unfold emits. apply _. Defined.

(** The couples of characters behind the pushed pairs, in the order in
    which the loops visit them. *)
Definition pairSources (cwe : list WithEpisodes.t)
    : list (WithEpisodes.t * WithEpisodes.t) :=
  character1 ← cwe;
  character2 ← cwe;
  if decide (emits character1 character2) then [(character1, character2)] else [].

(** Two characters share an episode reference. *)
Definition shareEpisode (a b : WithEpisodes.t) : Prop :=
  ∃ ep, ep ∈ WithEpisodes.episodes a ∧ ep ∈ WithEpisodes.episodes b.

(** The set of the episode references of a character. *)
Definition episodeSet (c : WithEpisodes.t) : gset string :=
  list_to_set (WithEpisodes.episodes c).

(** The comparator of [sortedPairs], from the count of a value. *)
Definition descending {A : Type} (key : A → Z) : A → A → Z := λ a b, key b - key a.

(** [a] is not ranked below [b]. *)
Definition notBelow {A : Type} (key : A → Z) : relation A := λ a b, key b ≤ key a.

(** Ordered by the key, larger first, and by [R0] among equal keys. *)
Definition thenBy {A : Type} (key : A → Z) (R0 : relation A) : relation A :=
  λ a b, key b < key a ∨ (key a = key b ∧ R0 a b).

(** The count of the pair that the loops push for a couple. *)
Definition sharedCount (source : WithEpisodes.t * WithEpisodes.t) : Z :=
  CharacterPair.episodes (uncurry pairOf source).

(** Ascending [character1] id, then ascending [character2] id. *)
Definition byIds : relation (WithEpisodes.t * WithEpisodes.t) :=
  λ s t, WithEpisodes.id s.1 < WithEpisodes.id t.1
         ∨ (WithEpisodes.id s.1 = WithEpisodes.id t.1
            ∧ WithEpisodes.id s.2 < WithEpisodes.id t.2).

(** A supplied parameter that the validation lets through: [parseInt]
    reads a finite integer that is at least [lower] from it. *)
Definition accepted (lower : Z) (raw : option string) : Prop :=
  match raw with
  | None => True
  | Some s =>
      match parseInt s with
      | Finite z => lower ≤ z
      | _ => False
      end
  end.

#[global] Instance accepted_dec lower raw : Decision (accepted lower raw).
Proof. unfold accepted. destruct raw as [s|]; [destruct (parseInt s)|]; apply _. Defined.

(** The URLs that the helpers fetch. *)
Definition charactersUrl : string := BASE_URL +:+ "/character/".

Definition searchUrl (resourceType searchTerm : string) : string :=
  BASE_URL +:+ "/" +:+ resourceType +:+ "/?name=" +:+ encodeURIComponent searchTerm.

(** The bounds that [GET /top-pairs] works with, and the ranked pairs of
    the characters that it loads. *)
Definition minEpisodesOf (query : Query.t) : number :=
  default (Finite 0) (parseInt <$> Query.min query).
Definition maxEpisodesOf (query : Query.t) : number :=
  default Infinity (parseInt <$> Query.max query).
Definition limitOf (query : Query.t) : number :=
  default (Finite 20) (parseInt <$> Query.limit query).
Definition rankedPairs (upstream : string → Fetched) : list CharacterPair.t :=
  sortedPairs (charactersPairs (charactersWithEpisodes (getAllCharacters upstream).1)).

(** An upstream failure of the character load, other than a 404: the
    request is rejected, the status is not a success, or the body is not
    JSON. *)
Definition loadFailure (fetched : Fetched) : Prop :=
  match fetched with
  | Rejected _ => True
  | Resolved response =>
      Response.status response ≠ 404
      ∧ (Response.ok response = false
         ∨ ∃ message, Response.json response = SyntaxError message)
  end.

(** Any failure of a name search, a 404 included. *)
Definition searchFailure (fetched : Fetched) : Prop :=
  match fetched with
  | Rejected _ => True
  | Resolved response =>
      Response.status response = 404
      ∨ Response.ok response = false
      ∨ ∃ message, Response.json response = SyntaxError message
  end.

(** [min <= count <= max], with [None] for a maximum of [Infinity]. *)
Definition withinBounds (mn : Z) (mx : option Z) (pair : CharacterPair.t) : Prop :=
  mn ≤ CharacterPair.episodes pair
  ∧ match mx with
    | Some m => CharacterPair.episodes pair ≤ m
    | None => True
    end.

#[global] Instance withinBounds_dec mn mx pair : Decision (withinBounds mn mx pair).
Proof. unfold withinBounds. destruct mx; apply _. Defined.

(** Following the words of the specification: the whole string is a
    decimal integer (an optional sign, then digits and nothing else). *)
Fixpoint allDigits (s : string) : bool :=
  match s with
  | EmptyString => true
  | String c s' => isDigit c && allDigits s'
  end.

Definition wholeInteger (s : string) : bool :=
  match s with
  | String "-" digits | String "+" digits =>
      negb (bool_decide (digits = EmptyString)) && allDigits digits
  | _ => negb (bool_decide (s = EmptyString)) && allDigits s
  end.

(** The string does not go on with a digit. *)
Definition noLeadingDigit (s : string) : bool :=
  match s with
  | String c _ => negb (isDigit c)
  | EmptyString => true
  end.

(** The results of a name search that succeeded, none otherwise. *)
Definition hits (fetched : Fetched) : list Character.t :=
  match fetched with
  | Rejected _ => []
  | Resolved response =>
      if Response.ok response then
        match Response.json response with
        | SyntaxError _ => []
        | Parsed data => default [] (ApiResponse.results data)
        end
      else []
  end.

(** The hits of one collection, with their origin. *)
Definition tagged (type : ResourceType.t) (resources : list Character.t)
    : list SearchResult.t :=
  (λ resource, SearchResult.mk (Character.name resource) type (Character.url resource))
  <$> resources.

(** The first [limit] results when a limit is given. *)
Definition truncated {A : Type} (limitRaw : option string) (results : list A) : list A :=
  match limitRaw with
  | None => results
  | Some raw =>
      match parseInt raw with
      | Finite z => take (Z.to_nat z) results
      | _ => results
      end
  end.

(** A request that [GET /search] does not reject. *)
Definition validSearch (query : Query.t) (searchTerm : string) : Prop :=
  Query.term query = Some searchTerm ∧ searchTerm ≠ EmptyString
  ∧ accepted 1 (Query.limit query).

(** Every couple of input characters, in the order of the two loops. *)
Definition couples (cwe : list WithEpisodes.t) : list (WithEpisodes.t * WithEpisodes.t) :=
  character1 ← cwe; character2 ← cwe; [(character1, character2)].

(** ** Sample inputs *)

Module Sample.
Definition character (id : Z) (name : string) (episode : list string) : Character.t :=
  Character.mk id name "" ("https://rickandmortyapi.com/api/character/" +:+ name) episode.

Definition rick : Character.t := character 1 "Rick" ["S01E01"; "S01E02"].
Definition morty : Character.t := character 2 "Morty" ["S01E01"; "S01E02"].
Definition summer : Character.t := character 3 "Summer" ["S01E01"].

Definition page (next : option string) (results : list Character.t) : Fetched :=
  Resolved (Response.mk 200 "OK"
    (Parsed (ApiResponse.mk (ApiResponse.mk_info 3 2 next None) (Some results)))).

Definition page2Url : string := "https://rickandmortyapi.com/api/character/?page=2".

(** A character collection of two pages. *)
Definition twoPages (url : string) : Fetched :=
  if decide (url = charactersUrl) then page (Some page2Url) [rick; morty]
  else if decide (url = page2Url) then page None [summer]
  else Resolved (Response.mk 404 "Not Found" (SyntaxError "no body")).

(** A character collection of one page, in the given order. *)
Definition onePage (results : list Character.t) (url : string) : Fetched :=
  if decide (url = charactersUrl) then page None results
  else Resolved (Response.mk 404 "Not Found" (SyntaxError "no body")).

(** An upstream that answers every request with a 500. *)
Definition serverError (url : string) : Fetched :=
  Resolved (Response.mk 500 "Internal Server Error" (SyntaxError "no body")).

Definition noParameters : Query.t := Query.mk None None None None.

(** A character whose episode list repeats a reference. *)
Definition repeating : WithEpisodes.t := WithEpisodes.mk 1 "A" "u/A" ["e1"; "e1"].
Definition other : WithEpisodes.t := WithEpisodes.mk 2 "B" "u/B" ["e1"].

(** Three characters of one episode, not in the order of their ids. *)
Definition second : WithEpisodes.t := WithEpisodes.mk 2 "X" "u/X" ["e1"].
Definition first : WithEpisodes.t := WithEpisodes.mk 1 "Y" "u/Y" ["e1"].
Definition third : WithEpisodes.t := WithEpisodes.mk 3 "Z" "u/Z" ["e1"].

Definition ref (c : Character.t) : CharacterRef.t :=
  CharacterRef.mk (Character.name c) (Character.url c).
Definition rickMorty : CharacterPair.t := CharacterPair.mk (ref rick) (ref morty) 2.
Definition rickSummer : CharacterPair.t := CharacterPair.mk (ref rick) (ref summer) 1.
Definition mortySummer : CharacterPair.t := CharacterPair.mk (ref morty) (ref summer) 1.

Definition citadel : Character.t :=
  Character.mk 3 "Citadel of Ricks" "Space station"
    "https://rickandmortyapi.com/api/location/3" [].

(** A name search for "Rick": no character (404), one location, and no
    answer from the episode collection. *)
Definition searchUpstream (url : string) : Fetched :=
  if decide (url = searchUrl "character" "Rick") then
    Resolved (Response.mk 404 "Not Found" (SyntaxError "no body"))
  else if decide (url = searchUrl "location" "Rick") then page None [citadel]
  else Rejected "fetch failed".

Definition searchRick : Query.t := Query.mk (Some "Rick") None None None.
End Sample.

(** ** Notions of the further properties *)

(** The string that [GET /search] passes to [searchResource] for a type. *)
Definition typeName (type : ResourceType.t) : string :=
  match type with
  | ResourceType.character => "character"
  | ResourceType.location => "location"
  | ResourceType.episode => "episode"
  end.

(** The limit of the first request is not larger than the one of the
    second; no limit is the largest. *)
Definition limitAtMost (limitRaw limitRaw' : option string) : Prop :=
  match limitRaw, limitRaw' with
  | _, None => True
  | None, Some _ => False
  | Some raw, Some raw' =>
      ∃ z z', parseInt raw = Finite z ∧ parseInt raw' = Finite z' ∧ z ≤ z'
  end.

(** The characters of a string. *)
Fixpoint characters (s : string) : list ascii :=
  match s with
  | EmptyString => []
  | String c s' => c :: characters s'
  end.

(** ** More sample inputs *)

Module Inputs.
(** An upstream that answers 404 to every request. *)
Definition notFound (url : string) : Fetched :=
  Resolved (Response.mk 404 "Not Found" (SyntaxError "no body")).

Definition threeCharacters : string → Fetched :=
  Sample.onePage [Sample.rick; Sample.morty; Sample.summer].
End Inputs.

(** The pair that the source pushes for [character1] and [character2],
    written out: the name and url of the first in [character1], those of
    the second in [character2], and for [episodes] the number of entries
    of the episode list of the first that occur in the one of the
    second. *)
Definition pushedPair (source : WithEpisodes.t * WithEpisodes.t) : CharacterPair.t :=
  {| CharacterPair.character1 :=
       {| CharacterRef.name := WithEpisodes.name source.1;
          CharacterRef.url := WithEpisodes.url source.1 |};
     CharacterPair.character2 :=
       {| CharacterRef.name := WithEpisodes.name source.2;
          CharacterRef.url := WithEpisodes.url source.2 |};
     CharacterPair.episodes :=
       Z.of_nat (length (filter (λ ep, ep ∈ WithEpisodes.episodes source.2)
                                (WithEpisodes.episodes source.1))) |}.

(** ** [GET /search] on bodies of any shape

    [response.json()] is cast to [ApiResponse] without a check, so
    [data.results] may be something else than an array of resources.  The
    definitions above take the cast at its word; the ones of this module
    follow [searchResource] and the handler on a [results] that is absent
    or falsy, an array of resources, or a truthy value that is not an
    array (an object, a number, a text).  Arrays whose items are not
    objects stay outside. *)
Module Loose.

Inductive Results : Type :=
  | NoResults
  | Items (items : list Character.t)
  | NotAnArray.

Inductive Body : Type :=
  | SyntaxError (message : string)
  | Parsed (results : Results).

Record Response : Type := mkResponse {
  status : Z;
  statusText : string;
  json : Body
}.

(** [response.ok] *)
Definition ok (response : Response) : bool :=
  (200 <=? status response) && (status response <=? 299).

Inductive Fetched : Type :=
  | Rejected (message : string)
  | Resolved (response : Response).

(** What [searchResource] returns: an array, or the value that is not one. *)
Inductive Returned : Type :=
  | Array (items : list Character.t)
  | Value.

(** [data.results || []] *)
Definition resultsOrEmpty (results : Results) : Returned :=
  match results with
  | NoResults => Array []
  | Items items => Array items
  | NotAnArray => Value
  end.

(** [value.forEach(callback)]: a [TypeError] when [value] is not an array. *)
Definition forEach {S : Type} (value : Returned) (callback : Character.t → S → S) (s : S)
    : Completion S :=
  match value with
  | Array items => Return (forEach items callback s)
  | Value => Throw "forEach is not a function"
  end.

(** The rest of a [try] block after a statement that may throw. *)
Definition andThen {A B : Type} (completion : Completion A) (rest : A → Completion B)
    : Completion B :=
  match completion with
  | Throw message => Throw message
  | Return value => rest value
  end.

Section Service.

Variable upstream : string → Fetched.

Definition fetch (url : string) : IO Fetched := (upstream url, [url]).

Definition searchResource_try (resourceType : string) (fetched : Fetched)
    : Completion Returned :=
  match fetched with
  | Rejected message => Throw message
  | Resolved response =>
      if status response =? 404 then Return (Array [])
      else if negb (ok response) then
        Throw ("Failed to fetch " +:+ resourceType +:+ ": " +:+ statusText response)
      else
        match json response with
        | SyntaxError message => Throw message
        | Parsed results => Return (resultsOrEmpty results)
        end
  end.

Definition searchResource (resourceType searchTerm : string) : IO Returned :=
  fetched ← fetch (BASE_URL +:+ "/" +:+ resourceType +:+ "/?name="
                   +:+ encodeURIComponent searchTerm);
  mret (catch (searchResource_try resourceType fetched) (λ _, Array [])).

Definition search_try (searchTerm : string) (limit : option number)
    : IO (Completion Reply.t) :=
  characters ← searchResource "character" searchTerm;
  locations ← searchResource "location" searchTerm;
  episodes ← searchResource "episode" searchTerm;
  let results : list SearchResult.t := [] in
  mret (
    andThen
      (forEach characters (λ character,
         push (SearchResult.mk (Character.name character) ResourceType.character
                               (Character.url character))) results) (λ results,
    andThen
      (forEach locations (λ location,
         push (SearchResult.mk (Character.name location) ResourceType.location
                               (Character.url location))) results) (λ results,
    andThen
      (forEach episodes (λ episode,
         push (SearchResult.mk (Character.name episode) ResourceType.episode
                               (Character.url episode))) results) (λ results,
    let limitedResults :=
      match limit with
      | Some limit => if truthy limit then slice0 limit results else results
      | None => results
      end in
    Return (Reply.mk 200 (Reply.SearchResults limitedResults)))))).

Definition search (query : Query.t) : IO Reply.t :=
  let limitRaw := Query.limit query in
  match Query.term query with
  | None | Some EmptyString =>
      mret (Reply.mk 400 (Reply.Error "Missing 'term' query parameter"))
  | Some searchTerm =>
      let limit := parseInt <$> limitRaw in
      if match limit with
         | Some limit => negb (isFinite limit) || number_le limit (Finite 0)
         | None => false
         end
      then mret (Reply.mk 400
                  (Reply.Error "Query parameter 'limit' must be a positive integer"))
      else
        completion ← search_try searchTerm limit;
        mret (catch completion
                (λ _, Reply.mk 500 (Reply.Error "Internal server error")))
  end.

End Service.

(** The failures that [searchResource] reduces to the empty array: a
    rejected request, a 404 or another status that is not a success, a
    body that is not JSON. *)
Definition searchFailure (fetched : Fetched) : Prop :=
  match fetched with
  | Rejected _ => True
  | Resolved response =>
      status response = 404
      ∨ ok response = false
      ∨ ∃ message, json response = SyntaxError message
  end.


(** The resources of a successful answer with an array, none otherwise. *)
Definition hits (fetched : Fetched) : list Character.t :=
  match fetched with
  | Rejected _ => []
  | Resolved response =>
      if ok response then
        match json response with
        | Parsed (Items items) => items
        | _ => []
        end
      else []
  end.


End Loose.

(** An answer of the declared shape, as an answer of any shape. *)
Definition loosen (fetched : Fetched) : Loose.Fetched :=
  match fetched with
  | Rejected message => Loose.Rejected message
  | Resolved response =>
      Loose.Resolved
        (Loose.mkResponse (Response.status response) (Response.statusText response)
           match Response.json response with
           | SyntaxError message => Loose.SyntaxError message
           | Parsed data =>
               Loose.Parsed match ApiResponse.results data with
                            | None => Loose.NoResults
                            | Some items => Loose.Items items
                            end
           end)
  end.

(** * Properties *)

(** ** Arrays *)

Section Arrays.
Context {A B : Type}.

Lemma forEach_bind (g : A → list B) (l : list A) (acc : list B) :
  forEach l (λ a acc, acc ++ g a) acc = acc ++ (l ≫= g).
Proof.
  unfold forEach. revert acc.
  induction l as [|a l IH]; intros acc; simpl.
  - by rewrite app_nil_r.
  - by rewrite IH, <-(assoc_L (++)).
Qed.

Lemma forEach_ext {S : Type} (f g : A → S → S) (l : list A) (s : S) :
  (∀ a s, f a s = g a s) → forEach l f s = forEach l g s.
Proof.
  intros Hfg. unfold forEach. revert s.
  induction l as [|a l IH]; intros s; simpl; [done|]. by rewrite Hfg, IH.
Qed.

Lemma forEach_push (f : A → B) (l : list A) (acc : list B) :
  forEach l (λ a, push (f a)) acc = acc ++ (f <$> l).
Proof.
  unfold push. rewrite (forEach_bind (λ a, [f a])). by f_equal.
Qed.

Lemma List_filter_stdpp (f : A → bool) (l : list A) :
  List.filter f l = filter (λ a, f a = true) l.
Proof.
  induction l as [|a l IH]; simpl; [done|].
  rewrite filter_cons, IH. destruct (f a); by case_decide.
Qed.
End Arrays.

(** ** The stable sort *)

Section Sorting.
Context {A : Type} (key : A → Z).

Lemma insert_perm (cmp : A → A → Z) x l : insert cmp x l ≡ₚ x :: l.
Proof.
  induction l as [|y l IH]; simpl; [done|].
  case_match; [done|]. by rewrite IH, Permutation_swap.
Qed.

Lemma sort_perm (cmp : A → A → Z) l : sort cmp l ≡ₚ l.
Proof.
  induction l as [|x l IH]; simpl; [done|].
  by rewrite insert_perm, IH.
Qed.

(** Insertion only passes elements of a strictly larger key. *)
Lemma insert_filter_key x l k :
  filter (λ a, key a = k) (insert (descending key) x l)
  = filter (λ a, key a = k) (x :: l).
Proof.
  induction l as [|y l IH]; simpl; [done|].
  unfold descending at 1. case_match eqn:Hc; [done|].
  apply Z.leb_gt in Hc.
  rewrite (filter_cons _ y), IH, !filter_cons.
  repeat case_decide; try done; lia.
Qed.

(** Stability: the elements of one key keep their order. *)
Lemma sort_stable l k :
  filter (λ a, key a = k) (sort (descending key) l) = filter (λ a, key a = k) l.
Proof.
  induction l as [|x l IH]; simpl; [done|].
  rewrite insert_filter_key, !filter_cons, IH. done.
Qed.

Lemma insert_thenBy (R0 : relation A) x l :
  Forall (R0 x) l →
  StronglySorted (thenBy key R0) l →
  StronglySorted (thenBy key R0) (insert (descending key) x l).
Proof.
  induction l as [|y l IH]; intros Hx Hl; simpl.
  - repeat constructor.
  - apply Forall_cons in Hx as [Hxy Hx].
    apply StronglySorted_inv in Hl as [Hl Hy].
    unfold descending at 1. case_match eqn:Hc.
    + apply Z.leb_le in Hc.
      assert (thenBy key R0 x y) as Hxy'.
      { unfold thenBy. destruct (decide (key y < key x)); [by left|right].
        split; [lia|done]. }
      constructor; [by constructor|].
      constructor; [done|].
      rewrite Forall_forall in Hy, Hx |- *. intros z Hz.
      specialize (Hy z Hz). specialize (Hx z Hz).
      unfold thenBy in *.
      destruct (decide (key z < key x)); [by left|right].
      split; [lia|done].
    + apply Z.leb_gt in Hc.
      constructor; [by apply IH|].
      rewrite insert_perm. constructor; [|done].
      unfold thenBy. lia.
Qed.

(** Sorting a list that is ordered by [R0] orders it by the key, and
    leaves it ordered by [R0] among equal keys. *)
Lemma sort_thenBy (R0 : relation A) l :
  StronglySorted R0 l → StronglySorted (thenBy key R0) (sort (descending key) l).
Proof.
  induction l as [|x l IH]; intros Hl; simpl; [constructor|].
  apply StronglySorted_inv in Hl as [Hl Hx].
  apply insert_thenBy; [|by apply IH].
  by rewrite sort_perm.
Qed.

Lemma sort_sorted l : StronglySorted (notBelow key) (sort (descending key) l).
Proof.
  induction l as [|x l IH]; simpl; [constructor|].
  revert IH. generalize (sort (descending key) l) as s.
  induction s as [|y s IHs]; intros Hs; simpl.
  - repeat constructor.
  - apply StronglySorted_inv in Hs as [Hs Hy].
    unfold descending at 1. case_match eqn:Hc.
    + apply Z.leb_le in Hc. constructor; [by constructor|].
      constructor; [unfold notBelow; lia|].
      eapply Forall_impl; [exact Hy|]. unfold notBelow. intros; lia.
    + apply Z.leb_gt in Hc. constructor; [by apply IHs|].
      rewrite insert_perm. constructor; [unfold notBelow; lia|done].
Qed.
End Sorting.

Lemma insert_fmap {A B : Type} (f : A → B) (cmp : B → B → Z) x l :
  insert cmp (f x) (f <$> l) = f <$> insert (λ a b, cmp (f a) (f b)) x l.
Proof.
  induction l as [|y l IH]; csimpl; [done|].
  case_match; [done|]. by rewrite IH.
Qed.

Lemma sort_fmap {A B : Type} (f : A → B) (cmp : B → B → Z) l :
  sort cmp (f <$> l) = f <$> sort (λ a b, cmp (f a) (f b)) l.
Proof.
  induction l as [|x l IH]; csimpl; [done|].
  by rewrite IH, insert_fmap.
Qed.

Section Unique.
Context {A : Type} (key : A → Z).

(** Two lists in descending order of key that agree on the elements of
    every key, in order, are equal. *)
Lemma sorted_classes_eq (l1 l2 : list A) :
  StronglySorted (notBelow key) l1 →
  StronglySorted (notBelow key) l2 →
  (∀ k, filter (λ a, key a = k) l1 = filter (λ a, key a = k) l2) →
  l1 = l2.
Proof.
  intros Hs1. revert l2.
  induction Hs1 as [|x l1 Hs1 IH Hx]; intros l2 Hs2 Hcl.
  - destruct l2 as [|y l2]; [done|].
    specialize (Hcl (key y)). rewrite filter_cons_True in Hcl by done. done.
  - destruct Hs2 as [|y l2 Hs2 Hy].
    { specialize (Hcl (key x)). rewrite filter_cons_True in Hcl by done. done. }
    assert (key y = key x) as Hkey.
    { destruct (decide (key y = key x)) as [|Hne]; [done|exfalso].
      rewrite Forall_forall in Hx, Hy.
      assert (x ∈ y :: l2) as Hxin.
      { eapply (list_elem_of_filter (λ a, key a = key x)).
        rewrite <-Hcl, filter_cons_True by done. left. }
      assert (y ∈ x :: l1) as Hyin.
      { eapply (list_elem_of_filter (λ a, key a = key y)).
        rewrite Hcl, filter_cons_True by done. left. }
      apply elem_of_cons in Hxin as [->|Hxin]; [done|].
      apply elem_of_cons in Hyin as [->|Hyin]; [done|].
      specialize (Hx y Hyin). specialize (Hy x Hxin).
      unfold notBelow in *. lia. }
    pose proof (Hcl (key x)) as Hhead.
    rewrite filter_cons_True, (filter_cons_True _ y) in Hhead by done.
    injection Hhead as -> Htail.
    f_equal. apply IH; [done|]. intros k.
    specialize (Hcl k). rewrite !filter_cons in Hcl.
    case_decide; [by simplify_eq|done].
Qed.

(** Any stable sort by descending key returns what [sort] returns. *)
Lemma sort_unique (l sorted : list A) :
  StronglySorted (notBelow key) sorted →
  (∀ k, filter (λ a, key a = k) sorted = filter (λ a, key a = k) l) →
  sorted = sort (descending key) l.
Proof.
  intros Hs Hcl. apply sorted_classes_eq; [done|apply sort_sorted|].
  intros k. by rewrite sort_stable.
Qed.
End Unique.

(** ** The pair computation *)

Lemma charactersWithEpisodes_fmap (allCharacters : list Character.t) :
  charactersWithEpisodes allCharacters
  = (λ character, WithEpisodes.mk (Character.id character) (Character.name character)
                    (Character.url character) (Character.episode character))
    <$> allCharacters.
Proof. unfold charactersWithEpisodes. by rewrite forEach_push. Qed.

Lemma charactersPairs_sources (cwe : list WithEpisodes.t) :
  charactersPairs cwe = uncurry pairOf <$> pairSources cwe.
Proof.
  unfold charactersPairs, pairSources.
  set (g := λ c1 c2 : WithEpisodes.t,
         if decide (emits c1 c2) then [pairOf c1 c2] else []).
  rewrite (forEach_ext _ (λ c1 acc, acc ++ (cwe ≫= g c1))).
  - rewrite forEach_bind. simpl.
    enough (∀ outer inner : list WithEpisodes.t,
      outer ≫= (λ c1, inner ≫= g c1)
      = uncurry pairOf <$> (outer ≫= λ c1, inner ≫= λ c2,
          if decide (emits c1 c2) then [(c1, c2)] else [])) as H by apply H.
    intros outer inner.
    induction outer as [|c1 outer IH]; csimpl; [done|].
    rewrite fmap_app, <-IH. f_equal.
    clear IH. induction inner as [|c2 inner IH]; csimpl; [done|].
    rewrite fmap_app, <-IH. f_equal.
    unfold g. by case_decide.
  - intros c1 acc. rewrite <-forEach_bind. apply forEach_ext.
    intros c2 acc'. unfold g, emits, push.
    destruct (Z.ltb_spec (WithEpisodes.id c1) (WithEpisodes.id c2)) as [Hid|Hid];
      [destruct (Nat.ltb_spec 0 (length (commonEpisodes c1 c2))) as [Hlen|Hlen]|];
      case_decide as He; try done; try (by rewrite app_nil_r);
      destruct He; lia.
Qed.

Lemma elem_of_emitted (c1 c2 : WithEpisodes.t) s :
  s ∈ (if decide (emits c1 c2) then [(c1, c2)] else []) ↔ s = (c1, c2) ∧ emits c1 c2.
Proof.
  case_decide.
  - rewrite list_elem_of_singleton. naive_solver.
  - split; [by intros ?%not_elem_of_nil|naive_solver].
Qed.

Lemma elem_of_pairSources (cwe : list WithEpisodes.t) a b :
  (a, b) ∈ pairSources cwe ↔ a ∈ cwe ∧ b ∈ cwe ∧ emits a b.
Proof.
  unfold pairSources. rewrite list_elem_of_bind.
  setoid_rewrite list_elem_of_bind. setoid_rewrite elem_of_emitted.
  naive_solver.
Qed.

Lemma NoDup_pairSources (cwe : list WithEpisodes.t) :
  NoDup cwe → NoDup (pairSources cwe).
Proof.
  intros Hnd. unfold pairSources. apply NoDup_bind; [| |done].
  - intros c1 c1' s _ _ H1 H2.
    apply list_elem_of_bind in H1 as (? & [-> _]%elem_of_emitted & _).
    apply list_elem_of_bind in H2 as (? & [? _]%elem_of_emitted & _).
    by simplify_eq.
  - intros c1 _. apply NoDup_bind; [| |done].
    + intros c2 c2' s _ _ [-> _]%elem_of_emitted [? _]%elem_of_emitted.
      by simplify_eq.
    + intros c2 _. case_decide; [apply NoDup_singleton|apply NoDup_nil_2].
Qed.

(** [Set.has] on the set of a list is membership in the list. *)
Lemma commonEpisodes_filter (c1 c2 : WithEpisodes.t) :
  commonEpisodes c1 c2
  = filter (λ ep, ep ∈ WithEpisodes.episodes c2) (WithEpisodes.episodes c1).
Proof.
  unfold commonEpisodes. rewrite List_filter_stdpp.
  apply list_filter_iff. intros ep.
  rewrite bool_decide_eq_true. apply elem_of_list_to_set.
Qed.

Lemma commonEpisodes_shareEpisode (c1 c2 : WithEpisodes.t) :
  (0 < length (commonEpisodes c1 c2))%nat ↔ shareEpisode c1 c2.
Proof.
  rewrite commonEpisodes_filter. unfold shareEpisode. split.
  - intros Hlen.
    destruct (filter _ _) as [|ep l] eqn:Hf; [simpl in Hlen; lia|].
    assert (ep ∈ filter (λ ep, ep ∈ WithEpisodes.episodes c2)
                        (WithEpisodes.episodes c1)) as Hin
      by (rewrite Hf; left).
    apply list_elem_of_filter in Hin as [??]. eauto.
  - intros (ep & H1 & H2).
    assert (ep ∈ filter (λ ep, ep ∈ WithEpisodes.episodes c2)
                        (WithEpisodes.episodes c1)) as Hin
      by (by apply list_elem_of_filter).
    destruct (filter _ _); [by apply not_elem_of_nil in Hin|simpl; lia].
Qed.

(** Without repeated references in the first list, the count is the size
    of the intersection. *)
Lemma commonEpisodes_size (c1 c2 : WithEpisodes.t) :
  NoDup (WithEpisodes.episodes c1) →
  length (commonEpisodes c1 c2) = size (episodeSet c1 ∩ episodeSet c2).
Proof.
  intros Hnd. rewrite commonEpisodes_filter.
  rewrite <-(size_list_to_set (C:=gset string)) by by apply NoDup_filter.
  f_equal. apply set_eq. intros ep.
  rewrite elem_of_list_to_set, list_elem_of_filter, elem_of_intersection.
  unfold episodeSet. rewrite !elem_of_list_to_set. naive_solver.
Qed.

(** ** Parameter validation *)

Lemma accepted_None lower : accepted lower None.
Proof. done. Qed.

Lemma accepted_Some lower s :
  accepted lower (Some s) ↔ ∃ z, parseInt s = Finite z ∧ lower ≤ z.
Proof.
  unfold accepted. destruct (parseInt s) as [| | |z]; [naive_solver..|].
  split; [by eauto|]. by intros (? & [= <-] & ?).
Qed.

Lemma accepted_inv lower raw s :
  accepted lower raw → raw = Some s → ∃ z, parseInt s = Finite z ∧ lower ≤ z.
Proof. intros Hacc ->. by apply accepted_Some. Qed.

(** The test of [min] and [max]. *)
Lemma check_nonnegative raw d :
  bool_decide (raw ≠ None)
  && (negb (isFinite (default d (parseInt <$> raw)))
      || number_lt (default d (parseInt <$> raw)) (Finite 0)) = false
  ↔ accepted 0 raw.
Proof.
  destruct raw as [s|]; [|done].
  rewrite accepted_Some. simpl.
  destruct (parseInt s) as [| | |z]; simpl; try naive_solver.
  rewrite Z.ltb_ge. naive_solver.
Qed.

(** The test of [limit]. *)
Lemma check_positive raw d :
  bool_decide (raw ≠ None)
  && (negb (isFinite (default d (parseInt <$> raw)))
      || number_le (default d (parseInt <$> raw)) (Finite 0)) = false
  ↔ accepted 1 raw.
Proof.
  destruct raw as [s|]; [|done].
  rewrite accepted_Some. simpl.
  destruct (parseInt s) as [| | |z]; simpl; try naive_solver.
  rewrite Z.leb_gt. split; [intros; exists z; split; [done|lia]|].
  intros (? & [= <-] & ?). lia.
Qed.

(** ** The loader *)

Lemma getAllCharacters_eq upstream :
  getAllCharacters upstream
  = (catch (getAllCharacters_try (upstream charactersUrl)) (λ _, []), [charactersUrl]).
Proof. done. Qed.

Lemma searchResource_eq upstream resourceType searchTerm :
  searchResource upstream resourceType searchTerm
  = (catch (searchResource_try resourceType
              (upstream (searchUrl resourceType searchTerm))) (λ _, []),
     [searchUrl resourceType searchTerm]).
Proof. done. Qed.

(** ** The replies of [GET /top-pairs] *)

Lemma top_pairs_cases upstream query :
  (¬ accepted 0 (Query.min query)
   ∧ top_pairs upstream query
     = (Reply.mk 400
          (Reply.Error "Query parameter 'min' must be a non-negative integer"), []))
  ∨ (accepted 0 (Query.min query) ∧ ¬ accepted 0 (Query.max query)
     ∧ top_pairs upstream query
       = (Reply.mk 400
            (Reply.Error "Query parameter 'max' must be a non-negative integer"), []))
  ∨ (accepted 0 (Query.min query) ∧ accepted 0 (Query.max query)
     ∧ ¬ accepted 1 (Query.limit query)
     ∧ top_pairs upstream query
       = (Reply.mk 400
            (Reply.Error "Query parameter 'limit' must be a positive integer"), []))
  ∨ (accepted 0 (Query.min query) ∧ accepted 0 (Query.max query)
     ∧ accepted 1 (Query.limit query)
     ∧ top_pairs upstream query
       = (Reply.mk 200
            (Reply.Pairs
               (slice0 (limitOf query)
                  (filteredPairs (minEpisodesOf query) (maxEpisodesOf query)
                     (rankedPairs upstream)))),
          [charactersUrl])).
Proof.
  unfold top_pairs.
  destruct (_ && _) eqn:Hmin.
  { left. split; [|done]. rewrite <-check_nonnegative. by rewrite Hmin. }
  apply check_nonnegative in Hmin.
  destruct (_ && _) eqn:Hmax.
  { right; left. split_and!; [done| |done].
    rewrite <-check_nonnegative. by rewrite Hmax. }
  apply check_nonnegative in Hmax.
  destruct (_ && _) eqn:Hlim.
  { right; right; left. split_and!; [done|done| |done].
    rewrite <-check_positive. by rewrite Hlim. }
  apply check_positive in Hlim.
  right; right; right. split_and!; try done.
Qed.

(** ** [parseInt] reads a prefix *)

Lemma digitsPrefix_app digits rest :
  allDigits digits = true → noLeadingDigit rest = true →
  digitsPrefix (digits +:+ rest) = digits.
Proof.
  intros Hd Hr. induction digits as [|c digits IH]; simpl in *.
  - destruct rest as [|c rest]; [done|]. simpl in *.
    by destruct (isDigit c).
  - apply andb_true_iff in Hd as [-> Hd]. by rewrite IH.
Qed.

Lemma digitsPrefix_allDigits digits :
  allDigits digits = true → digitsPrefix digits = digits.
Proof.
  induction digits as [|c digits IH]; simpl; [done|].
  intros [-> Hd]%andb_true_iff. by rewrite IH.
Qed.

Lemma isDigit_byte c : isDigit c = true → (48 ≤ nat_of_ascii c ≤ 57)%nat.
Proof. unfold isDigit. rewrite andb_true_iff, !Nat.leb_le. done. Qed.

Lemma trimStart_digit c tail :
  isDigit c = true → trimStart (String c tail) = String c tail.
Proof.
  intros Hc%isDigit_byte. cbn [trimStart].
  assert (isWhiteSpace c = false) as ->.
  { unfold isWhiteSpace. apply orb_false_iff. split.
    - apply andb_false_iff. right. apply Nat.leb_gt. lia.
    - apply Nat.eqb_neq. lia. }
  destruct tail as [|c2 tail]; [done|].
  assert (isWhiteSpace2 c c2 = false) as ->.
  { unfold isWhiteSpace2. apply andb_false_iff. left. apply Nat.eqb_neq. lia. }
  destruct tail as [|c3 tail]; [done|].
  assert (isWhiteSpace3 c c2 c3 = false) as ->; [|done].
  unfold isWhiteSpace3. revert Hc. generalize (nat_of_ascii c) as n. intros n Hc.
  do 58 (destruct n as [|n]; [by (lia || reflexivity)|]). lia.
Qed.

Lemma isDigit_not_sign c : isDigit c = true → c ≠ "-"%char ∧ c ≠ "+"%char.
Proof. intros Hd. split; intros ->; by vm_compute in Hd. Qed.

(** What follows the digits is ignored. *)
Lemma parseInt_ignores_suffix digits rest :
  allDigits digits = true → digits ≠ EmptyString → noLeadingDigit rest = true →
  parseInt (digits +:+ rest) = parseInt digits.
Proof.
  intros Hd Hne Hr.
  destruct digits as [|c digits]; [done|]. clear Hne.
  pose proof Hd as Hd'. simpl in Hd'. apply andb_true_iff in Hd' as [Hc Hd'].
  pose proof (isDigit_not_sign c Hc) as [Hm Hp].
  assert (∀ tail, parseInt (String c tail)
                  = match digitsPrefix (String c tail) with
                    | EmptyString => NaN
                    | ds => toNumber (1 * mathInt 0 ds)
                    end) as Hparse.
  { intros tail. unfold parseInt. rewrite trimStart_digit by done.
    destruct c as [[] [] [] [] [] [] [] []]; try done. }
  change (String c digits +:+ rest) with (String c (digits +:+ rest)).
  rewrite !Hparse.
  change (String c (digits +:+ rest)) with (String c digits +:+ rest).
  rewrite digitsPrefix_app by done.
  by rewrite digitsPrefix_allDigits.
Qed.

(** ** The character load *)

(** C1 (the code departs from the claim): [getAllCharacters] fetches the
    first page and nothing else, whatever [next] cursor the page carries.
    On a collection of two pages it returns the characters of the first
    page only: the character of the second page is missing and the
    second page is never requested. *)
Theorem getAllCharacters_first_page_only :
  (∀ upstream, (getAllCharacters upstream).2 = [charactersUrl])
  ∧ (getAllCharacters Sample.twoPages
     = ([Sample.rick; Sample.morty], [charactersUrl]))
  ∧ (Sample.summer ∉ (getAllCharacters Sample.twoPages).1)
  ∧ (Sample.page2Url ∉ (getAllCharacters Sample.twoPages).2).
Proof.
  split_and!; [done|done|..]; rewrite getAllCharacters_eq; vm_compute.
  - intros H. apply list_elem_of_In in H. simpl in H.
    destruct H as [H|[H|[]]]; discriminate H.
  - intros H. apply list_elem_of_In in H. simpl in H.
    destruct H as [H|[]]; discriminate H.
Qed.

Lemma slice0_nil {A : Type} (end_ : number) : slice0 end_ (@nil A) = [].
Proof. destruct end_ as [| | |z]; simpl; try done. by case_match; rewrite take_nil. Qed.

Lemma getAllCharacters_loadFailure upstream :
  loadFailure (upstream charactersUrl) → getAllCharacters upstream = ([], [charactersUrl]).
Proof.
  rewrite getAllCharacters_eq. intros Hfail. f_equal.
  unfold getAllCharacters_try.
  destruct (upstream charactersUrl) as [message|response]; [done|].
  destruct Hfail as [H404 Hfail].
  rewrite (proj2 (Z.eqb_neq _ _) H404).
  destruct (Response.ok response); simpl; [|done].
  destruct Hfail as [?|[message ->]]; done.
Qed.

Lemma rankedPairs_nil upstream :
  (getAllCharacters upstream).1 = [] → rankedPairs upstream = [].
Proof. unfold rankedPairs. by intros ->. Qed.

(** C2 (counterexample): an upstream that answers 500 to the character
    load does not make [GET /top-pairs] fail: the reply is not a 500. *)
Lemma top_pairs_load_failure_counterexample :
  ¬ (∀ upstream query,
       loadFailure (upstream charactersUrl) →
       (top_pairs upstream query).1
       = Reply.mk 500 (Reply.Error "Internal server error")).
Proof.
  intros H. specialize (H Sample.serverError Sample.noParameters).
  assert (loadFailure (Sample.serverError charactersUrl)) as Hfail.
  { split; [done|]. by left. }
  specialize (H Hfail). vm_compute in H. discriminate H.
Qed.

(** C2 (amended): every upstream failure of the character load other than
    a 404 (rejected request, non-success status, body that is not JSON) is
    caught inside the loader, which returns the empty list; a
    [GET /top-pairs] request whose parameters pass the validation then
    replies 200 with the empty array, and no request gets a 500. *)
Theorem top_pairs_load_failure_empty upstream query :
  loadFailure (upstream charactersUrl) →
  getAllCharacters upstream = ([], [charactersUrl])
  ∧ (accepted 0 (Query.min query) → accepted 0 (Query.max query) →
     accepted 1 (Query.limit query) →
     top_pairs upstream query = (Reply.mk 200 (Reply.Pairs []), [charactersUrl]))
  ∧ Reply.status (top_pairs upstream query).1 ≠ 500.
Proof.
  intros Hfail. pose proof (getAllCharacters_loadFailure _ Hfail) as Hload.
  split; [done|].
  assert (rankedPairs upstream = []) as Hranked
    by (apply rankedPairs_nil; by rewrite Hload).
  destruct (top_pairs_cases upstream query)
    as [(? & ->)|[(? & ? & ->)|[(? & ? & ? & ->)|(? & ? & ? & ->)]]];
    (split; [try done|done]).
  intros _ _ _. rewrite Hranked. unfold filteredPairs. simpl.
  by rewrite slice0_nil.
Qed.

Lemma top_pairs_load_failure_empty_witness :
  loadFailure (Sample.serverError charactersUrl)
  ∧ getAllCharacters Sample.serverError = ([], [charactersUrl]).
Proof.
  assert (loadFailure (Sample.serverError charactersUrl)) as Hfail.
  { split; [done|]. by left. }
  split; [done|].
  exact (proj1 (top_pairs_load_failure_empty Sample.serverError Sample.noParameters Hfail)).
Defined.

(** ** From the reply to the generated pairs *)

Lemma slice0_take {A : Type} (end_ : number) (l : list A) :
  ∃ n, slice0 end_ l = take n l.
Proof.
  destruct end_ as [| | |z]; simpl.
  - by exists 0%nat.
  - exists (length l). by rewrite firstn_all.
  - by exists 0%nat.
  - case_match; eauto.
Qed.

Lemma slice0_positive {A : Type} (z : Z) (l : list A) :
  0 ≤ z → slice0 (Finite z) l = take (Z.to_nat z) l.
Proof. intros Hz. simpl. by rewrite (proj2 (Z.ltb_ge _ _) Hz). Qed.

Lemma top_pairs_body_Pairs upstream query pairs :
  Reply.body (top_pairs upstream query).1 = Reply.Pairs pairs →
  accepted 0 (Query.min query) ∧ accepted 0 (Query.max query)
  ∧ accepted 1 (Query.limit query)
  ∧ top_pairs upstream query = (Reply.mk 200 (Reply.Pairs pairs), [charactersUrl])
  ∧ pairs = slice0 (limitOf query)
              (filteredPairs (minEpisodesOf query) (maxEpisodesOf query)
                 (rankedPairs upstream)).
Proof.
  destruct (top_pairs_cases upstream query)
    as [(? & ->)|[(? & ? & ->)|[(? & ? & ? & ->)|(? & ? & ? & ->)]]];
    simpl; intros [= <-]; done.
Qed.

Lemma elem_of_filteredPairs minEpisodes maxEpisodes l p :
  p ∈ filteredPairs minEpisodes maxEpisodes l
  ↔ p ∈ l
    ∧ number_ge (Finite (CharacterPair.episodes p)) minEpisodes = true
    ∧ number_le (Finite (CharacterPair.episodes p)) maxEpisodes = true.
Proof.
  unfold filteredPairs. rewrite List_filter_stdpp, list_elem_of_filter.
  rewrite andb_true_iff. naive_solver.
Qed.

Lemma elem_of_sortedPairs l p : p ∈ sortedPairs l ↔ p ∈ l.
Proof. unfold sortedPairs. by rewrite sort_perm. Qed.

Lemma elem_of_reply_pairs upstream query pairs p :
  Reply.body (top_pairs upstream query).1 = Reply.Pairs pairs →
  p ∈ pairs →
  p ∈ charactersPairs (charactersWithEpisodes (getAllCharacters upstream).1).
Proof.
  intros (_ & _ & _ & _ & ->)%top_pairs_body_Pairs Hp.
  destruct (slice0_take (limitOf query)
              (filteredPairs (minEpisodesOf query) (maxEpisodesOf query)
                 (rankedPairs upstream))) as [n Hn].
  rewrite Hn in Hp. apply elem_of_take in Hp as (i & Hp & _).
  apply list_elem_of_lookup_2 in Hp.
  apply elem_of_filteredPairs in Hp as [Hp _].
  unfold rankedPairs in Hp. by rewrite elem_of_sortedPairs in Hp.
Qed.

(** ** The count of a pair *)

(** C3 (counterexample): when the episode list of [character1] repeats a
    reference that [character2] has too, the count is the number of
    repetitions, not the size of the intersection. *)
Lemma pair_count_intersection_counterexample :
  ¬ (∀ cwe c1 c2,
       c1 ∈ cwe → c2 ∈ cwe → pairOf c1 c2 ∈ charactersPairs cwe →
       CharacterPair.episodes (pairOf c1 c2)
       = Z.of_nat (size (episodeSet c1 ∩ episodeSet c2))).
Proof.
  intros H.
  specialize (H [Sample.repeating; Sample.other] Sample.repeating Sample.other).
  assert (size (episodeSet Sample.repeating ∩ episodeSet Sample.other) = 1%nat) as Hsize.
  { replace (episodeSet Sample.repeating ∩ episodeSet Sample.other)
      with ({["e1"]} : gset string).
    - apply size_singleton.
    - apply set_eq. intros ep. unfold episodeSet. simpl. set_solver. }
  rewrite Hsize in H.
  assert (CharacterPair.episodes (pairOf Sample.repeating Sample.other) = 2) as Hcount
    by by vm_compute.
  rewrite Hcount in H.
  enough (2 = Z.of_nat 1) by lia.
  apply H; [set_solver|set_solver|].
  rewrite charactersPairs_sources. apply list_elem_of_fmap.
  exists (Sample.repeating, Sample.other). split; [done|].
  apply elem_of_pairSources. split_and!; [set_solver|set_solver|].
  split; [by vm_compute|]. vm_compute. lia.
Qed.

(** C3 (amended): every pair that [GET /top-pairs] returns comes from two
    loaded characters, [character1] with the smaller id; its count is at
    least 1 and is the number of entries of the episode list of
    [character1] whose reference occurs in the episode list of
    [character2]; when the episode list of [character1] holds no reference
    twice, this is the size of the intersection of the two sets of episode
    references. *)
Theorem returned_pair_count upstream query pairs p :
  Reply.body (top_pairs upstream query).1 = Reply.Pairs pairs →
  p ∈ pairs →
  ∃ c1 c2,
    c1 ∈ charactersWithEpisodes (getAllCharacters upstream).1
    ∧ c2 ∈ charactersWithEpisodes (getAllCharacters upstream).1
    ∧ WithEpisodes.id c1 < WithEpisodes.id c2
    ∧ p = pairOf c1 c2
    ∧ 1 ≤ CharacterPair.episodes p
    ∧ CharacterPair.episodes p
      = Z.of_nat (length (filter (λ ep, ep ∈ WithEpisodes.episodes c2)
                                 (WithEpisodes.episodes c1)))
    ∧ (NoDup (WithEpisodes.episodes c1) →
       CharacterPair.episodes p
       = Z.of_nat (size (episodeSet c1 ∩ episodeSet c2))).
Proof.
  intros Hbody Hp. pose proof (elem_of_reply_pairs _ _ _ _ Hbody Hp) as Hgen.
  rewrite charactersPairs_sources in Hgen.
  apply list_elem_of_fmap in Hgen as ([c1 c2] & -> & Hsrc).
  apply elem_of_pairSources in Hsrc as (H1 & H2 & Hid & Hlen).
  exists c1, c2. simpl. split_and!; try done.
  - lia.
  - by rewrite commonEpisodes_filter.
  - intros Hnd. by rewrite commonEpisodes_size.
Qed.

Lemma returned_pair_count_witness :
  ∃ c1 c2 : WithEpisodes.t,
    Sample.rickMorty = pairOf c1 c2 ∧ 1 ≤ CharacterPair.episodes Sample.rickMorty.
Proof.
  destruct (returned_pair_count Sample.twoPages Sample.noParameters
              [Sample.rickMorty] Sample.rickMorty)
    as (c1 & c2 & _ & _ & _ & Hp & Hcount & _).
  - reflexivity.
  - apply list_elem_of_here.
  - by exists c1, c2.
Defined.

(** ** One pair for each couple of characters *)

Lemma shareEpisode_sym a b : shareEpisode a b → shareEpisode b a.
Proof. intros (ep & ? & ?). by exists ep. Qed.

(** The pushed pair, field by field. *)
Lemma pairOf_pushedPair (source : WithEpisodes.t * WithEpisodes.t) :
  uncurry pairOf source = pushedPair source.
Proof.
  destruct source as [a b]. unfold pushedPair, pairOf. simpl.
  by rewrite commonEpisodes_filter.
Qed.

(** C4: when the ids of the input characters are pairwise distinct, the
    pushed pairs are, one for one and in order, those of a list of couples
    of input characters without repetition: for the couple [(a, b)] the
    pair with the name and url of [a] as [character1], those of [b] as
    [character2], and their number of common episodes.  The list holds
    exactly the couples of input characters that share an episode
    reference, the one with the smaller id first.  So two distinct
    characters that share an episode get one pair, in one orientation
    only, with the smaller id in [character1]; no character is paired with
    itself, and no pair has a count of zero. *)
Theorem charactersPairs_one_per_couple (cwe : list WithEpisodes.t) :
  NoDup (WithEpisodes.id <$> cwe) →
  ∃ sources : list (WithEpisodes.t * WithEpisodes.t),
    charactersPairs cwe
    = (λ source,
         {| CharacterPair.character1 :=
              {| CharacterRef.name := WithEpisodes.name source.1;
                 CharacterRef.url := WithEpisodes.url source.1 |};
            CharacterPair.character2 :=
              {| CharacterRef.name := WithEpisodes.name source.2;
                 CharacterRef.url := WithEpisodes.url source.2 |};
            CharacterPair.episodes :=
              Z.of_nat (length (filter (λ ep, ep ∈ WithEpisodes.episodes source.2)
                                       (WithEpisodes.episodes source.1))) |})
      <$> sources
    ∧ NoDup sources
    ∧ (∀ a b, (a, b) ∈ sources
              ↔ a ∈ cwe ∧ b ∈ cwe
                ∧ WithEpisodes.id a < WithEpisodes.id b ∧ shareEpisode a b)
    ∧ (∀ a b, a ∈ cwe → b ∈ cwe → a ≠ b → shareEpisode a b →
              ((a, b) ∈ sources ∧ (b, a) ∉ sources)
              ∨ ((b, a) ∈ sources ∧ (a, b) ∉ sources))
    ∧ (∀ a b, (a, b) ∈ sources →
              a ≠ b
              ∧ (1 ≤ length (filter (λ ep, ep ∈ WithEpisodes.episodes b)
                                    (WithEpisodes.episodes a)))%nat).
Proof.
  intros Hids.
  assert (∀ a b, (a, b) ∈ pairSources cwe
                 ↔ a ∈ cwe ∧ b ∈ cwe
                   ∧ WithEpisodes.id a < WithEpisodes.id b ∧ shareEpisode a b) as Hin.
  { intros a b. rewrite elem_of_pairSources. unfold emits.
    by rewrite commonEpisodes_shareEpisode. }
  exists (pairSources cwe). split_and!.
  - rewrite charactersPairs_sources. apply list_fmap_ext.
    intros i source _. apply pairOf_pushedPair.
  - apply NoDup_pairSources. by apply NoDup_fmap_1 in Hids.
  - done.
  - intros a b Ha Hb Hne Hshare.
    assert (WithEpisodes.id a ≠ WithEpisodes.id b) as Hid.
    { intros Heq. apply Hne.
      apply list_elem_of_lookup in Ha as [i Hi], Hb as [j Hj].
      assert (i = j) as ->; [|congruence].
      eapply NoDup_lookup; [exact Hids| |];
        rewrite list_lookup_fmap; [by rewrite Hi|by rewrite Hj, Heq]. }
    rewrite !Hin.
    destruct (decide (WithEpisodes.id a < WithEpisodes.id b)).
    + left. split; [done|]. intros (_ & _ & ? & _). lia.
    + right. split; [|naive_solver].
      split_and!; [done|done|lia|by apply shareEpisode_sym].
  - intros a b (_ & _ & Hid & Hshare)%Hin. split.
    + intros ->. lia.
    + apply commonEpisodes_shareEpisode in Hshare.
      rewrite commonEpisodes_filter in Hshare. lia.
Qed.

Lemma charactersPairs_one_per_couple_witness :
  NoDup (WithEpisodes.id <$> [Sample.first; Sample.third; Sample.second])
  ∧ ∃ sources : list (WithEpisodes.t * WithEpisodes.t),
      charactersPairs [Sample.first; Sample.third; Sample.second]
      = pushedPair <$> sources
      ∧ NoDup sources.
Proof.
  assert (NoDup (WithEpisodes.id <$> [Sample.first; Sample.third; Sample.second]))
    as Hids.
  { vm_compute. repeat constructor; set_solver. }
  split; [exact Hids|].
  destruct (charactersPairs_one_per_couple
              [Sample.first; Sample.third; Sample.second] Hids)
    as (sources & Hpairs & Hnd & _).
  exists sources. split; [exact Hpairs|exact Hnd].
Defined.

(** ** Ranking *)

Lemma StronglySorted_sublist {A : Type} (R : relation A) (l1 l2 : list A) :
  l1 `sublist_of` l2 → StronglySorted R l2 → StronglySorted R l1.
Proof.
  induction 1 as [|x l1 l2 Hsub IH|x l1 l2 Hsub IH]; intros Hs.
  - constructor.
  - apply StronglySorted_inv in Hs as [Hs Hx].
    constructor; [by apply IH|].
    rewrite Forall_forall in Hx |- *. intros y Hy.
    apply Hx. by eapply elem_of_sublist.
  - apply StronglySorted_inv in Hs as [Hs _]. by apply IH.
Qed.

Lemma StronglySorted_consecutive {A : Type} (R : relation A) (l : list A) i p q :
  StronglySorted R l → l !! i = Some p → l !! S i = Some q → R p q.
Proof.
  intros Hs. revert i. induction Hs as [|x l Hs IH Hx]; intros i Hp Hq; [done|].
  destruct i as [|i]; simpl in *.
  - simplify_eq. rewrite Forall_forall in Hx. apply Hx.
    by eapply list_elem_of_lookup_2.
  - by eapply IH.
Qed.

Lemma filteredPairs_sublist minEpisodes maxEpisodes l :
  filteredPairs minEpisodes maxEpisodes l `sublist_of` l.
Proof. unfold filteredPairs. rewrite List_filter_stdpp. apply sublist_filter. Qed.

Lemma slice0_sublist {A : Type} (end_ : number) (l : list A) :
  slice0 end_ l `sublist_of` l.
Proof. destruct (slice0_take end_ l) as [n ->]. apply sublist_take. Qed.

Lemma reply_pairs_sorted upstream query pairs :
  Reply.body (top_pairs upstream query).1 = Reply.Pairs pairs →
  StronglySorted (notBelow CharacterPair.episodes) pairs.
Proof.
  intros (_ & _ & _ & _ & ->)%top_pairs_body_Pairs.
  eapply StronglySorted_sublist; [apply slice0_sublist|].
  eapply StronglySorted_sublist; [apply filteredPairs_sublist|].
  apply (sort_sorted CharacterPair.episodes).
Qed.

(** C6: in the array of pairs that [GET /top-pairs] replies with, a pair
    never has a smaller count than the pair that follows it. *)
Theorem top_pairs_ranked upstream query pairs i p q :
  Reply.body (top_pairs upstream query).1 = Reply.Pairs pairs →
  pairs !! i = Some p →
  pairs !! S i = Some q →
  CharacterPair.episodes q ≤ CharacterPair.episodes p.
Proof.
  intros Hbody Hp Hq.
  exact (StronglySorted_consecutive _ _ _ _ _ (reply_pairs_sorted _ _ _ Hbody) Hp Hq).
Qed.

Lemma top_pairs_ranked_witness :
  CharacterPair.episodes Sample.rickSummer ≤ CharacterPair.episodes Sample.rickMorty.
Proof.
  apply (top_pairs_ranked
           (Sample.onePage [Sample.rick; Sample.morty; Sample.summer])
           Sample.noParameters
           [Sample.rickMorty; Sample.rickSummer; Sample.mortySummer] 0);
    reflexivity.
Defined.

(** ** Filtering and limiting *)

Lemma filteredPairs_withinBounds mn mx l :
  filteredPairs (Finite mn) (from_option Finite Infinity mx) l
  = filter (withinBounds mn mx) l.
Proof.
  unfold filteredPairs. rewrite List_filter_stdpp.
  apply list_filter_iff. intros pair. unfold withinBounds, number_ge.
  rewrite andb_true_iff. destruct mx as [m|]; simpl; rewrite !Z.leb_le; naive_solver.
Qed.

Lemma accepted_default lower raw d :
  accepted lower raw → lower ≤ d →
  ∃ z, default (Finite d) (parseInt <$> raw) = Finite z ∧ lower ≤ z
       ∧ (raw = None → z = d).
Proof.
  intros Hacc Hd. destruct raw as [s|]; simpl.
  - destruct (accepted_inv _ _ s Hacc eq_refl) as (z & -> & Hz). exists z. naive_solver.
  - exists d. naive_solver.
Qed.

(** C7: when the three parameters pass the validation, [GET /top-pairs]
    replies 200 with the ranked pairs whose count [c] satisfies
    [min <= c <= max], cut after the first [limit] of them; [min] is 0,
    [max] is [Infinity] and [limit] is 20 when the parameter is absent.
    With [min] and [max] both 5, every returned pair has a count of 5. *)
Theorem top_pairs_filtered_limited upstream query :
  accepted 0 (Query.min query) →
  accepted 0 (Query.max query) →
  accepted 1 (Query.limit query) →
  ∃ (mn lim : Z) (mx : option Z),
    (minEpisodesOf query = Finite mn ∧ (Query.min query = None → mn = 0))
    ∧ (maxEpisodesOf query = from_option Finite Infinity mx
       ∧ (Query.max query = None → mx = None))
    ∧ (limitOf query = Finite lim ∧ (Query.limit query = None → lim = 20))
    ∧ top_pairs upstream query
      = (Reply.mk 200
           (Reply.Pairs (take (Z.to_nat lim)
                           (filter (withinBounds mn mx) (rankedPairs upstream)))),
         [charactersUrl])
    ∧ (mn = 5 → mx = Some 5 →
       ∀ p, p ∈ take (Z.to_nat lim)
                  (filter (withinBounds mn mx) (rankedPairs upstream)) →
            CharacterPair.episodes p = 5).
Proof.
  intros Hmin Hmax Hlim.
  destruct (accepted_default 0 _ 0 Hmin) as (mn & Hmn & Hmn0 & Hmnd); [done|].
  destruct (accepted_default 1 _ 20 Hlim) as (lim & Hl & Hl0 & Hld); [done|].
  assert (∃ mx, maxEpisodesOf query = from_option Finite Infinity mx
                ∧ (Query.max query = None → mx = None)) as (mx & Hmx & Hmxd).
  { unfold maxEpisodesOf. destruct (Query.max query) as [s|] eqn:Hq; simpl.
    - destruct (accepted_inv _ _ s Hmax eq_refl) as (z & -> & _). by exists (Some z).
    - by exists None. }
  exists mn, lim, mx. split_and!; try done.
  - destruct (top_pairs_cases upstream query)
      as [(? & _)|[(? & ? & _)|[(? & ? & ? & _)|(_ & _ & _ & ->)]]]; try done.
    unfold minEpisodesOf in Hmn. unfold limitOf in Hl.
    rewrite Hmx. unfold minEpisodesOf, limitOf. rewrite Hmn, Hl.
    rewrite filteredPairs_withinBounds, slice0_positive by lia. done.
  - intros -> -> p Hp.
    apply elem_of_take in Hp as (i & Hp & _). apply list_elem_of_lookup_2 in Hp.
    apply list_elem_of_filter in Hp as [[??] _]. lia.
Qed.

Lemma top_pairs_filtered_limited_witness :
  ∃ (mn lim : Z) (mx : option Z),
    top_pairs Sample.twoPages (Query.mk None (Some "5") (Some "5") None)
    = (Reply.mk 200
         (Reply.Pairs (take (Z.to_nat lim)
                         (filter (withinBounds mn mx) (rankedPairs Sample.twoPages)))),
       [charactersUrl]).
Proof.
  destruct (top_pairs_filtered_limited Sample.twoPages
              (Query.mk None (Some "5") (Some "5") None))
    as (mn & lim & mx & _ & _ & _ & Hreply & _).
  - by vm_compute.
  - by vm_compute.
  - exact I.
  - by exists mn, lim, mx.
Defined.

(** ** Validation of the parameters of [GET /top-pairs] *)

(** C5 (counterexample): [min=5abc] is not a whole integer, yet the
    request is not rejected: [parseInt] reads 5 and the upstream is
    called. *)
Lemma top_pairs_partial_number_counterexample :
  ¬ (∀ upstream query raw,
       Query.min query = Some raw → wholeInteger raw = false →
       top_pairs upstream query
       = (Reply.mk 400
            (Reply.Error "Query parameter 'min' must be a non-negative integer"), [])).
Proof.
  intros H.
  specialize (H Sample.serverError (Query.mk None (Some "5abc") None None) "5abc"
                eq_refl eq_refl).
  vm_compute in H. discriminate H.
Qed.

(** C5 (amended): a supplied [min], [max] or [limit] passes exactly when
    [Number.parseInt] reads from it a finite integer that is at least 0
    ([min], [max]) or at least 1 ([limit]); whatever follows the digits it
    reads is ignored.  Every other supplied value is rejected with a 400
    reply that names the first offending parameter, and no upstream call is
    made; a request that is not rejected makes the single call of the
    character load. *)
Theorem top_pairs_validation upstream query :
  (Reply.status (top_pairs upstream query).1 = 400
   ↔ ¬ (accepted 0 (Query.min query) ∧ accepted 0 (Query.max query)
        ∧ accepted 1 (Query.limit query)))
  ∧ (Reply.status (top_pairs upstream query).1 = 400 →
     (top_pairs upstream query).2 = []
     ∧ Reply.body (top_pairs upstream query).1
       = Reply.Error
           (if decide (accepted 0 (Query.min query)) then
              if decide (accepted 0 (Query.max query)) then
                "Query parameter 'limit' must be a positive integer"
              else "Query parameter 'max' must be a non-negative integer"
            else "Query parameter 'min' must be a non-negative integer"))
  ∧ (Reply.status (top_pairs upstream query).1 ≠ 400 →
     Reply.status (top_pairs upstream query).1 = 200
     ∧ (top_pairs upstream query).2 = [charactersUrl])
  ∧ (∀ lower digits rest,
       allDigits digits = true → digits ≠ EmptyString → noLeadingDigit rest = true →
       accepted lower (Some (digits +:+ rest)) ↔ accepted lower (Some digits)).
Proof.
  split_and!.
  - destruct (top_pairs_cases upstream query)
      as [(? & ->)|[(? & ? & ->)|[(? & ? & ? & ->)|(? & ? & ? & ->)]]];
      simpl; naive_solver.
  - destruct (top_pairs_cases upstream query)
      as [(? & ->)|[(? & ? & ->)|[(? & ? & ? & ->)|(? & ? & ? & ->)]]];
      simpl; intros ?; try done; repeat case_decide; done.
  - destruct (top_pairs_cases upstream query)
      as [(? & ->)|[(? & ? & ->)|[(? & ? & ? & ->)|(? & ? & ? & ->)]]];
      simpl; done.
  - intros lower digits rest Hd Hne Hr.
    rewrite !accepted_Some. by rewrite parseInt_ignores_suffix.
Qed.

(** ** Ties *)

Lemma bind_sublist_pointwise {A B : Type} (f g : A → list B) (l : list A) :
  (∀ a, f a `sublist_of` g a) → (l ≫= f) `sublist_of` (l ≫= g).
Proof.
  intros Hfg. induction l as [|a l IH]; csimpl; [done|].
  by apply sublist_app.
Qed.

Lemma pairSources_couples cwe : pairSources cwe `sublist_of` couples cwe.
Proof.
  unfold pairSources, couples.
  apply bind_sublist_pointwise. intros c1.
  apply bind_sublist_pointwise. intros c2.
  case_decide; [done|]. apply sublist_nil_l.
Qed.

Lemma StronglySorted_bind {A B : Type} (R0 : relation A) (R : relation B)
    (f : A → list B) (l : list A) :
  StronglySorted R0 l →
  (∀ a, StronglySorted R (f a)) →
  (∀ a a' b b', R0 a a' → b ∈ f a → b' ∈ f a' → R b b') →
  StronglySorted R (l ≫= f).
Proof.
  intros Hl Hf Hcross. induction Hl as [|a l Hl IH Ha]; csimpl; [constructor|].
  apply StronglySorted_app. split_and!; [|done|done].
  intros b b' Hb (a' & Hb' & Ha')%list_elem_of_bind.
  rewrite Forall_forall in Ha. eauto.
Qed.

(** With the input in ascending order of id, the couples are visited in
    ascending order of the first id, then of the second. *)
Lemma pairSources_byIds cwe :
  StronglySorted (λ a b, WithEpisodes.id a < WithEpisodes.id b) cwe →
  StronglySorted byIds (pairSources cwe).
Proof.
  intros Hs. unfold pairSources.
  apply (StronglySorted_bind _ _ _ _ Hs).
  - intros c1. apply (StronglySorted_bind _ _ _ _ Hs).
    + intros c2. case_decide; repeat constructor.
    + intros c2 c2' s s' Hlt [-> _]%elem_of_emitted [-> _]%elem_of_emitted.
      right. done.
  - intros c1 c1' s s' Hlt Hin Hin'.
    apply list_elem_of_bind in Hin as (? & [-> _]%elem_of_emitted & _).
    apply list_elem_of_bind in Hin' as (? & [-> _]%elem_of_emitted & _).
    by left.
Qed.

Lemma filter_take_prefix {A : Type} (P : A → Prop) `{!∀ a, Decision (P a)}
    (n : nat) (l : list A) :
  filter P (take n l) `prefix_of` filter P l.
Proof.
  rewrite <-(take_drop n l) at 2. rewrite filter_app. by apply prefix_app_r.
Qed.

(** The pairs of one count are kept or dropped together by the filter. *)
Lemma filteredPairs_class minEpisodes maxEpisodes k l :
  filter (λ p, CharacterPair.episodes p = k) (filteredPairs minEpisodes maxEpisodes l)
  = filter (λ p, CharacterPair.episodes p = k) l
  ∨ filter (λ p, CharacterPair.episodes p = k) (filteredPairs minEpisodes maxEpisodes l)
    = [].
Proof.
  unfold filteredPairs. rewrite List_filter_stdpp, list_filter_filter.
  destruct (number_ge (Finite k) minEpisodes && number_le (Finite k) maxEpisodes)
    eqn:Hk; [left|right].
  - apply list_filter_iff. intros p. split; [naive_solver|].
    intros <-. done.
  - induction l as [|p l IH]; [done|].
    rewrite filter_cons, IH. case_decide as Hp; [|done].
    destruct Hp as [<- Hp]. congruence.
Qed.

Lemma filteredPairs_fmap {A : Type} (f : A → CharacterPair.t) minEpisodes maxEpisodes l :
  filteredPairs minEpisodes maxEpisodes (f <$> l)
  = f <$> List.filter (λ a,
            number_ge (Finite (CharacterPair.episodes (f a))) minEpisodes
            && number_le (Finite (CharacterPair.episodes (f a))) maxEpisodes) l.
Proof.
  unfold filteredPairs. induction l as [|a l IH]; [done|].
  cbn [fmap list_fmap List.filter]. case_match; cbn [fmap list_fmap]; by f_equal.
Qed.

Lemma List_filter_sublist {A : Type} (f : A → bool) l : List.filter f l `sublist_of` l.
Proof. rewrite List_filter_stdpp. apply sublist_filter. Qed.

(** C10 (counterexample): with the input characters not in the order of
    their ids, two consecutive pairs of the same count are not in
    ascending order of the id of [character1]. *)
Lemma tie_order_by_id_counterexample :
  ¬ (∀ (cwe : list WithEpisodes.t) (a b c d : WithEpisodes.t) (i : nat),
       a ∈ cwe → b ∈ cwe → c ∈ cwe → d ∈ cwe →
       sortedPairs (charactersPairs cwe) !! i = Some (pairOf a b) →
       sortedPairs (charactersPairs cwe) !! S i = Some (pairOf c d) →
       CharacterPair.episodes (pairOf a b) = CharacterPair.episodes (pairOf c d) →
       byIds (a, b) (c, d)).
Proof.
  intros H.
  specialize (H [Sample.second; Sample.first; Sample.third]
                Sample.second Sample.third Sample.first Sample.second 0%nat).
  assert (byIds (Sample.second, Sample.third) (Sample.first, Sample.second))
    as [Hlt|[Heq _]].
  { apply H; try set_solver; by vm_compute. }
  - vm_compute in Hlt. discriminate Hlt.
  - vm_compute in Heq. discriminate Heq.
Qed.

(** C10 (amended): the pairs are pushed in the order in which the two
    loops visit the input characters; the sort is stable, so among the
    pairs of one count the reply keeps that order.  When the input
    characters come in ascending order of id, the order of the reply is:
    descending count, then ascending id of [character1], then ascending id
    of [character2].  The reply is a function of what the upstream answers
    to the character load. *)
Theorem top_pairs_tie_order upstream query pairs :
  Reply.body (top_pairs upstream query).1 = Reply.Pairs pairs →
  let cwe := charactersWithEpisodes (getAllCharacters upstream).1 in
  (∀ k, filter (λ p, CharacterPair.episodes p = k) pairs
        `prefix_of` filter (λ p, CharacterPair.episodes p = k) (charactersPairs cwe))
  ∧ (∃ sources, charactersPairs cwe = uncurry pairOf <$> sources
                ∧ sources `sublist_of` couples cwe)
  ∧ (StronglySorted (λ a b, WithEpisodes.id a < WithEpisodes.id b) cwe →
     ∃ ranked, pairs = uncurry pairOf <$> ranked
               ∧ StronglySorted (thenBy sharedCount byIds) ranked
               ∧ ∀ a b, (a, b) ∈ ranked → a ∈ cwe ∧ b ∈ cwe)
  ∧ (∀ upstream', upstream' charactersUrl = upstream charactersUrl →
                  top_pairs upstream' query = top_pairs upstream query).
Proof.
  intros Hbody cwe.
  pose proof Hbody as (Hmin & Hmax & Hlim & Hreply & Hpairs)%top_pairs_body_Pairs.
  destruct (slice0_take (limitOf query)
              (filteredPairs (minEpisodesOf query) (maxEpisodesOf query)
                 (rankedPairs upstream))) as [n Hn].
  rewrite Hn in Hpairs. split_and!.
  - intros k. rewrite Hpairs.
    etrans; [apply filter_take_prefix|].
    destruct (filteredPairs_class (minEpisodesOf query) (maxEpisodesOf query) k
                (rankedPairs upstream)) as [-> | ->].
    + unfold rankedPairs, sortedPairs.
      by rewrite (sort_stable CharacterPair.episodes).
    + apply prefix_nil.
  - exists (pairSources cwe). split.
    + apply charactersPairs_sources.
    + apply pairSources_couples.
  - intros Hasc.
    exists (take n (List.filter (λ s,
              number_ge (Finite (sharedCount s)) (minEpisodesOf query)
              && number_le (Finite (sharedCount s)) (maxEpisodesOf query))
              (sort (descending sharedCount) (pairSources cwe)))).
    split_and!.
    + rewrite Hpairs. unfold rankedPairs, sortedPairs. fold cwe.
      rewrite charactersPairs_sources, sort_fmap, filteredPairs_fmap, fmap_take.
      done.
    + eapply StronglySorted_sublist; [apply sublist_take|].
      eapply StronglySorted_sublist; [apply List_filter_sublist|].
      apply sort_thenBy. by apply pairSources_byIds.
    + intros a b Hab.
      eapply elem_of_sublist in Hab; [|apply sublist_take].
      eapply elem_of_sublist in Hab; [|apply List_filter_sublist].
      rewrite sort_perm in Hab.
      apply elem_of_pairSources in Hab. naive_solver.
  - intros upstream' Heq.
    assert (rankedPairs upstream' = rankedPairs upstream) as Hranked.
    { unfold rankedPairs. by rewrite !getAllCharacters_eq, Heq. }
    destruct (top_pairs_cases upstream query)
      as [(? & ->)|[(? & ? & ->)|[(? & ? & ? & ->)|(? & ? & ? & ->)]]];
      destruct (top_pairs_cases upstream' query)
      as [(? & ->)|[(? & ? & ->)|[(? & ? & ? & ->)|(? & ? & ? & ->)]]];
      try done.
    by rewrite Hranked.
Qed.

Lemma top_pairs_tie_order_witness :
  filter (λ p, CharacterPair.episodes p = 1)
    [Sample.rickMorty; Sample.rickSummer; Sample.mortySummer]
  `prefix_of`
  filter (λ p, CharacterPair.episodes p = 1)
    (charactersPairs
       (charactersWithEpisodes
          (getAllCharacters
             (Sample.onePage [Sample.rick; Sample.morty; Sample.summer])).1)).
Proof.
  refine (proj1 (top_pairs_tie_order
           (Sample.onePage [Sample.rick; Sample.morty; Sample.summer])
           Sample.noParameters
           [Sample.rickMorty; Sample.rickSummer; Sample.mortySummer] _) 1).
  reflexivity.
Defined.

(** ** [GET /search] *)

Lemma searchResource_hits upstream resourceType searchTerm :
  (searchResource upstream resourceType searchTerm).1
  = hits (upstream (searchUrl resourceType searchTerm)).
Proof.
  rewrite searchResource_eq. simpl. unfold searchResource_try, hits.
  destruct (upstream _) as [message|response]; [done|].
  destruct (Z.eqb_spec (Response.status response) 404) as [H404|H404].
  - unfold Response.ok. rewrite H404. done.
  - destruct (Response.ok response); simpl; [|done].
    by destruct (Response.json response).
Qed.

Lemma hits_searchFailure fetched : searchFailure fetched → hits fetched = [].
Proof.
  destruct fetched as [message|response]; [done|]. simpl.
  intros [H404|[Hok|[message Hjson]]].
  - unfold Response.ok. by rewrite H404.
  - by rewrite Hok.
  - rewrite Hjson. by case_match.
Qed.

Lemma search_reply upstream query searchTerm :
  validSearch query searchTerm →
  search upstream query
  = (Reply.mk 200
       (Reply.SearchResults
          (truncated (Query.limit query)
             (tagged ResourceType.character
                (hits (upstream (searchUrl "character" searchTerm)))
              ++ tagged ResourceType.location
                   (hits (upstream (searchUrl "location" searchTerm)))
              ++ tagged ResourceType.episode
                   (hits (upstream (searchUrl "episode" searchTerm)))))),
     [searchUrl "character" searchTerm; searchUrl "location" searchTerm;
      searchUrl "episode" searchTerm]).
Proof.
  intros (Hterm & Hne & Hlimit). unfold search. rewrite Hterm.
  destruct searchTerm as [|c searchTerm]; [done|].
  assert (match parseInt <$> Query.limit query with
          | Some limit => negb (isFinite limit) || number_le limit (Finite 0)
          | None => false
          end = false) as ->.
  { destruct (Query.limit query) as [raw|]; [|done]. simpl.
    destruct (accepted_inv _ _ raw Hlimit eq_refl) as (z & -> & Hz). simpl.
    apply Z.leb_gt. lia. }
  unfold search_try.
  pose proof (searchResource_hits upstream "character" (String c searchTerm)) as Hc.
  pose proof (searchResource_hits upstream "location" (String c searchTerm)) as Hl.
  pose proof (searchResource_hits upstream "episode" (String c searchTerm)) as He.
  rewrite !searchResource_eq in *. simpl in Hc, Hl, He.
  unfold mbind, IO_bind, mret, IO_ret. simpl. rewrite Hc, Hl, He.
  f_equal. f_equal. f_equal.
  rewrite !forEach_push. simpl. rewrite <-(assoc_L (++)).
  unfold truncated. destruct (Query.limit query) as [raw|]; [|done]. simpl.
  destruct (accepted_inv _ _ raw Hlimit eq_refl) as (z & -> & Hz).
  destruct z as [|z|z]; try lia. simpl. done.
Qed.

(** C9: the results of a valid [GET /search] request are the hits of the
    character search, then those of the location search, then those of
    the episode search, each with the type of its collection, cut after
    the first [limit] results when a limit is given; the three searches
    are the only upstream calls. *)
Theorem search_merged upstream query searchTerm :
  validSearch query searchTerm →
  ∃ results,
    search upstream query
    = (Reply.mk 200 (Reply.SearchResults results),
       [searchUrl "character" searchTerm; searchUrl "location" searchTerm;
        searchUrl "episode" searchTerm])
    ∧ match Query.limit query with
      | None =>
          results
          = tagged ResourceType.character
              (searchResource upstream "character" searchTerm).1
            ++ tagged ResourceType.location
                 (searchResource upstream "location" searchTerm).1
            ++ tagged ResourceType.episode
                 (searchResource upstream "episode" searchTerm).1
      | Some raw =>
          ∃ limit, parseInt raw = Finite limit ∧ 1 ≤ limit
            ∧ results
              = take (Z.to_nat limit)
                  (tagged ResourceType.character
                     (searchResource upstream "character" searchTerm).1
                   ++ tagged ResourceType.location
                        (searchResource upstream "location" searchTerm).1
                   ++ tagged ResourceType.episode
                        (searchResource upstream "episode" searchTerm).1)
            ∧ Z.of_nat (length results) ≤ limit
      end.
Proof.
  intros Hvalid. rewrite (search_reply _ _ _ Hvalid).
  eexists. split; [done|].
  rewrite !searchResource_hits. unfold truncated.
  destruct Hvalid as (_ & _ & Hlimit).
  destruct (Query.limit query) as [raw|]; [|done].
  destruct (accepted_inv _ _ raw Hlimit eq_refl) as (z & Hz & Hpos). rewrite Hz.
  exists z. split_and!; try done.
  rewrite length_take. lia.
Qed.

Lemma search_merged_witness :
  validSearch (Query.mk (Some "Rick") None None (Some "1")) "Rick"
  ∧ ∃ results,
      (search Sample.searchUpstream (Query.mk (Some "Rick") None None (Some "1"))).1
      = Reply.mk 200 (Reply.SearchResults results)
      ∧ Z.of_nat (length results) ≤ 1.
Proof.
  assert (validSearch (Query.mk (Some "Rick") None None (Some "1")) "Rick") as Hvalid.
  { split_and!; [reflexivity|discriminate|].
    by vm_compute. }
  split; [exact Hvalid|].
  destruct (search_merged Sample.searchUpstream
              (Query.mk (Some "Rick") None None (Some "1")) "Rick" Hvalid)
    as (results & Hreply & Hresults).
  exists results. rewrite Hreply. split; [reflexivity|].
  simpl in Hresults. destruct Hresults as (limit & Hparse & _ & _ & Hlen).
  injection Hparse as <-. exact Hlen.
Defined.

(** ** [GET /search] on bodies of any shape *)

Lemma Loose_searchResource_eq upstream resourceType searchTerm :
  Loose.searchResource upstream resourceType searchTerm
  = (catch (Loose.searchResource_try resourceType
              (upstream (searchUrl resourceType searchTerm))) (λ _, Loose.Array []),
     [searchUrl resourceType searchTerm]).
Proof. done. Qed.

(** On answers of the declared shape the two handlers agree. *)
Lemma Loose_searchResource_loosen upstream resourceType searchTerm :
  Loose.searchResource (λ url, loosen (upstream url)) resourceType searchTerm
  = (Loose.Array (searchResource upstream resourceType searchTerm).1,
     [searchUrl resourceType searchTerm]).
Proof.
  rewrite Loose_searchResource_eq, searchResource_eq. f_equal.
  unfold Loose.searchResource_try, searchResource_try, loosen.
  destruct (upstream _) as [message|response]; [done|]. simpl.
  unfold Loose.ok, Response.ok. simpl.
  destruct (Response.status response =? 404); [done|].
  destruct (_ && _); simpl; [|done].
  destruct (Response.json response) as [message|data]; [done|]. simpl.
  by destruct (ApiResponse.results data).
Qed.

Lemma Loose_search_loosen upstream query :
  Loose.search (λ url, loosen (upstream url)) query = search upstream query.
Proof.
  unfold Loose.search, search.
  destruct (Query.term query) as [[|c searchTerm]|]; [done| |done].
  case_match; [done|].
  unfold Loose.search_try, search_try.
  rewrite !Loose_searchResource_loosen, !searchResource_eq.
  reflexivity.
Qed.







(** * Further properties *)

(** ** More on [GET /search] *)

(** X1: [GET /search] replies 400 without any upstream call when [term]
    is absent or empty (whatever [limit] is), and when [term] is there but
    the supplied [limit] does not pass; it replies 200 exactly for the other
    requests, after three upstream calls. *)
Theorem search_validation upstream query :
  (Query.term query = None ∨ Query.term query = Some EmptyString →
   search upstream query
   = (Reply.mk 400 (Reply.Error "Missing 'term' query parameter"), []))
  ∧ (∀ searchTerm,
       Query.term query = Some searchTerm → searchTerm ≠ EmptyString →
       ¬ accepted 1 (Query.limit query) →
       search upstream query
       = (Reply.mk 400
            (Reply.Error "Query parameter 'limit' must be a positive integer"), []))
  ∧ (Reply.status (search upstream query).1 = 200
     ↔ ∃ searchTerm, validSearch query searchTerm)
  ∧ (Reply.status (search upstream query).1 = 200 →
     length (search upstream query).2 = 3%nat).
Proof.
  assert (∀ searchTerm,
            Query.term query = Some searchTerm → searchTerm ≠ EmptyString →
            ¬ accepted 1 (Query.limit query) →
            search upstream query
            = (Reply.mk 400
                 (Reply.Error "Query parameter 'limit' must be a positive integer"),
               [])) as Hlimit.
  { intros searchTerm Hterm Hne Hacc. unfold search. rewrite Hterm.
    destruct searchTerm as [|c searchTerm]; [done|].
    destruct (Query.limit query) as [raw|] eqn:Hraw; [|by destruct Hacc].
    simpl. rewrite accepted_Some in Hacc.
    destruct (parseInt raw) as [| | |z]; simpl; try done.
    destruct (Z.leb_spec z 0); [done|]. destruct Hacc. exists z. split; [done|lia]. }
  split_and!.
  - intros [Hterm|Hterm]; unfold search; by rewrite Hterm.
  - done.
  - split.
    + intros Hstatus. destruct (Query.term query) as [[|c searchTerm]|] eqn:Hterm;
        [by unfold search in Hstatus; rewrite Hterm in Hstatus
        | |by unfold search in Hstatus; rewrite Hterm in Hstatus].
      exists (String c searchTerm). split_and!; [done|done|].
      destruct (decide (accepted 1 (Query.limit query))) as [|Hacc]; [done|].
      rewrite (Hlimit _ eq_refl) in Hstatus; done.
    + intros (searchTerm & Hvalid). by rewrite (search_reply _ _ _ Hvalid).
  - intros Hstatus.
    destruct (Query.term query) as [[|c searchTerm]|] eqn:Hterm;
      [by unfold search in Hstatus; rewrite Hterm in Hstatus
      | |by unfold search in Hstatus; rewrite Hterm in Hstatus].
    destruct (decide (accepted 1 (Query.limit query))) as [Hacc|Hacc].
    + by rewrite (search_reply upstream query (String c searchTerm)).
    + rewrite (Hlimit _ eq_refl) in Hstatus; done.
Qed.

Lemma elem_of_tagged type resources r :
  r ∈ tagged type resources
  ↔ ∃ resource, resource ∈ resources
      ∧ r = SearchResult.mk (Character.name resource) type (Character.url resource).
Proof. unfold tagged. rewrite list_elem_of_fmap. naive_solver. Qed.

Lemma truncated_sublist {A : Type} limitRaw (l : list A) :
  truncated limitRaw l `sublist_of` l.
Proof.
  unfold truncated. destruct limitRaw as [raw|]; [|done].
  destruct (parseInt raw); try done. apply sublist_take.
Qed.

Lemma search_body_results upstream query searchTerm results :
  validSearch query searchTerm →
  Reply.body (search upstream query).1 = Reply.SearchResults results →
  results
  = truncated (Query.limit query)
      (tagged ResourceType.character
         (hits (upstream (searchUrl "character" searchTerm)))
       ++ tagged ResourceType.location
            (hits (upstream (searchUrl "location" searchTerm)))
       ++ tagged ResourceType.episode
            (hits (upstream (searchUrl "episode" searchTerm)))).
Proof.
  intros Hvalid. rewrite (search_reply _ _ _ Hvalid). simpl. by intros [= <-].
Qed.

(** X2: every result of a valid [GET /search] carries the name and the url
    of a hit of the collection its type names; without a limit, every hit
    of the three collections is among the results. *)
Theorem search_results_origin upstream query searchTerm results :
  validSearch query searchTerm →
  Reply.body (search upstream query).1 = Reply.SearchResults results →
  (∀ r, r ∈ results →
     ∃ resource,
       resource ∈ hits (upstream (searchUrl (typeName (SearchResult.type r)) searchTerm))
       ∧ SearchResult.name r = Character.name resource
       ∧ SearchResult.url r = Character.url resource)
  ∧ (Query.limit query = None →
     ∀ type resource,
       resource ∈ hits (upstream (searchUrl (typeName type) searchTerm)) →
       SearchResult.mk (Character.name resource) type (Character.url resource)
       ∈ results).
Proof.
  intros Hvalid Hbody.
  rewrite (search_body_results _ _ _ _ Hvalid Hbody). split.
  - intros r Hr. eapply elem_of_sublist in Hr; [|apply truncated_sublist].
    rewrite !elem_of_app, !elem_of_tagged in Hr.
    destruct Hr as [(resource & Hin & ->)|[(resource & Hin & ->)|(resource & Hin & ->)]];
      exists resource; done.
  - intros -> type resource Hin. simpl.
    rewrite !elem_of_app, !elem_of_tagged. destruct type; eauto 6.
Qed.

Lemma search_results_origin_witness :
  ∃ resource,
    resource ∈ hits (Sample.searchUpstream (searchUrl "location" "Rick"))
    ∧ "Citadel of Ricks" = Character.name resource.
Proof.
  destruct (search_results_origin Sample.searchUpstream Sample.searchRick "Rick"
              [SearchResult.mk "Citadel of Ricks" ResourceType.location
                 "https://rickandmortyapi.com/api/location/3"])
    as [Horigin _].
  - split_and!; [reflexivity|discriminate|exact I].
  - reflexivity.
  - destruct (Horigin _ (list_elem_of_here _ _)) as (resource & Hin & Hname & _).
    by exists resource.
Defined.

Lemma limitAtMost_prefix {A : Type} limitRaw limitRaw' (l : list A) :
  limitAtMost limitRaw limitRaw' →
  truncated limitRaw l `prefix_of` truncated limitRaw' l.
Proof.
  unfold limitAtMost, truncated.
  destruct limitRaw as [raw|], limitRaw' as [raw'|]; try done.
  - intros (z & z' & -> & -> & Hle).
    replace (take (Z.to_nat z) l) with (take (Z.to_nat z) (take (Z.to_nat z') l))
      by (rewrite take_take; f_equal; lia).
    apply prefix_take.
  - intros _. destruct (parseInt raw); try done. apply prefix_take.
Qed.

(** X3: for one term and one upstream, the results under a limit are a
    prefix of the results under a larger limit, and of the results
    without limit. *)
Theorem search_limit_prefix upstream query query' searchTerm results results' :
  validSearch query searchTerm →
  validSearch query' searchTerm →
  limitAtMost (Query.limit query) (Query.limit query') →
  Reply.body (search upstream query).1 = Reply.SearchResults results →
  Reply.body (search upstream query').1 = Reply.SearchResults results' →
  results `prefix_of` results'.
Proof.
  intros Hvalid Hvalid' Hle Hbody Hbody'.
  rewrite (search_body_results _ _ _ _ Hvalid Hbody).
  rewrite (search_body_results _ _ _ _ Hvalid' Hbody').
  by apply limitAtMost_prefix.
Qed.

Lemma search_limit_prefix_witness :
  [SearchResult.mk "Citadel of Ricks" ResourceType.location
     "https://rickandmortyapi.com/api/location/3"]
  `prefix_of`
  [SearchResult.mk "Citadel of Ricks" ResourceType.location
     "https://rickandmortyapi.com/api/location/3"].
Proof.
  apply (search_limit_prefix Sample.searchUpstream
           (Query.mk (Some "Rick") None None (Some "1"))
           Sample.searchRick "Rick").
  - split_and!; [reflexivity|discriminate|by vm_compute].
  - split_and!; [reflexivity|discriminate|exact I].
  - exact I.
  - reflexivity.
  - reflexivity.
Defined.

(** ** The URL of a name search *)

Lemma hexDigit_byte n :
  (n < 16)%nat →
  nat_of_ascii (hexDigit n) = if (n <? 10)%nat then (48 + n)%nat else (55 + n)%nat.
Proof.
  intros Hn. unfold hexDigit.
  destruct (n <? 10)%nat; apply nat_ascii_embedding; lia.
Qed.

Lemma hexDigit_inj n m :
  (n < 16)%nat → (m < 16)%nat → hexDigit n = hexDigit m → n = m.
Proof.
  intros Hn Hm Heq. apply (f_equal nat_of_ascii) in Heq.
  rewrite !hexDigit_byte in Heq by done.
  destruct (Nat.ltb_spec n 10), (Nat.ltb_spec m 10); lia.
Qed.

Lemma hexDigit_unreserved n : (n < 16)%nat → isUnreserved (hexDigit n) = true.
Proof.
  intros Hn. do 16 (destruct n as [|n]; [reflexivity|]). lia.
Qed.

Lemma percent_reserved : isUnreserved "%" = false.
Proof. reflexivity. Qed.

Lemma byte_split c :
  (nat_of_ascii c / 16 < 16)%nat ∧ (nat_of_ascii c mod 16 < 16)%nat.
Proof.
  pose proof (nat_ascii_bounded c). split.
  - apply Nat.Div0.div_lt_upper_bound. lia.
  - apply Nat.mod_upper_bound. lia.
Qed.

Lemma encodeURIComponent_cons c s :
  encodeURIComponent (String c s)
  = if isUnreserved c then String c (encodeURIComponent s)
    else String "%" (String (hexDigit (nat_of_ascii c / 16))
           (String (hexDigit (nat_of_ascii c mod 16)) (encodeURIComponent s))).
Proof. reflexivity. Qed.

(** The encoding loses nothing. *)
Lemma encodeURIComponent_inj s t :
  encodeURIComponent s = encodeURIComponent t → s = t.
Proof.
  revert t. induction s as [|c s IH]; intros [|d t];
    rewrite ?encodeURIComponent_cons.
  - done.
  - by case_match.
  - by case_match.
  - destruct (isUnreserved c) eqn:Hc, (isUnreserved d) eqn:Hd.
    + intros [= -> Heq]. f_equal. by apply IH.
    + intros [= -> _]. by rewrite percent_reserved in Hc.
    + intros [= <- _]. by rewrite percent_reserved in Hd.
    + intros [= Hhi Hlo Heq].
      pose proof (byte_split c) as [??]. pose proof (byte_split d) as [??].
      apply hexDigit_inj in Hhi, Hlo; [|done..].
      f_equal; [|by apply IH].
      rewrite <-(ascii_nat_embedding c), <-(ascii_nat_embedding d). f_equal.
      assert (nat_of_ascii c / 16 = nat_of_ascii d / 16)%nat as Hhi' by exact Hhi.
      assert (nat_of_ascii c mod 16 = nat_of_ascii d mod 16)%nat as Hlo' by exact Hlo.
      rewrite (Nat.div_mod_eq (nat_of_ascii c) 16), (Nat.div_mod_eq (nat_of_ascii d) 16).
      by rewrite Hhi', Hlo'.
Qed.

(** X4: the encoded term is made of unreserved characters and of [%]
    only: it cannot close the [name] parameter or open another one. *)
Theorem encodeURIComponent_safe s c :
  c ∈ characters (encodeURIComponent s) → isUnreserved c = true ∨ c = "%"%char.
Proof.
  induction s as [|d s IH]; rewrite ?encodeURIComponent_cons.
  - by intros ?%not_elem_of_nil.
  - pose proof (byte_split d) as [??].
    destruct (isUnreserved d) eqn:Hd; cbn [characters]; rewrite ?elem_of_cons.
    + intros [->|Hin]; [by left|by apply IH].
    + intros [->|[->|[->|Hin]]]; [by right|left|left|by apply IH];
        by apply hexDigit_unreserved.
Qed.

Lemma encodeURIComponent_safe_witness :
  isUnreserved "2" = true ∨ "2"%char = "%"%char.
Proof.
  apply (encodeURIComponent_safe "a b" "2"). vm_compute.
  apply list_elem_of_further, list_elem_of_further, list_elem_of_here.
Defined.

Lemma append_inj_r (a s t : string) : a +:+ s = a +:+ t → s = t.
Proof. induction a as [|c a IH]; simpl; [done|]. intros [= ?]. by apply IH. Qed.

(** X5: two name searches fetch the same URL only if they are for the
    same collection and the same term. *)
Theorem searchUrl_inj type type' searchTerm searchTerm' :
  searchUrl (typeName type) searchTerm = searchUrl (typeName type') searchTerm' →
  type = type' ∧ searchTerm = searchTerm'.
Proof.
  unfold searchUrl. intros Heq%append_inj_r%append_inj_r.
  destruct type, type'; simpl in Heq; try discriminate Heq;
    (split; [done|]); apply encodeURIComponent_inj;
    repeat (injection Heq as Heq); done.
Qed.

Lemma searchUrl_inj_witness :
  ResourceType.location = ResourceType.location ∧ "Rick" = "Rick".
Proof. apply searchUrl_inj. reflexivity. Defined.

(** ** More on the pair computation *)

Lemma bind_filter_nil {A B : Type} (P : A → Prop) `{!∀ a, Decision (P a)}
    (f : A → list B) (l : list A) :
  (∀ a, ¬ P a → f a = []) → filter P l ≫= f = l ≫= f.
Proof.
  intros Hf. induction l as [|a l IH]; [done|].
  rewrite filter_cons. case_decide as Ha; csimpl; [by rewrite IH|].
  by rewrite IH, (Hf a Ha).
Qed.

Lemma bind_ext {A B : Type} (f g : A → list B) (l : list A) :
  (∀ a, f a = g a) → l ≫= f = l ≫= g.
Proof. intros Hfg. induction l as [|a l IH]; csimpl; [done|]. by rewrite Hfg, IH. Qed.

Lemma bind_nil_const {A B : Type} (l : list A) : l ≫= (λ _, @nil B) = [].
Proof. induction l; csimpl; done. Qed.

Lemma emits_episodes c1 c2 :
  emits c1 c2 → WithEpisodes.episodes c1 ≠ [] ∧ WithEpisodes.episodes c2 ≠ [].
Proof.
  intros [_ (ep & H1 & H2)%commonEpisodes_shareEpisode].
  split; intros Hnil; rewrite Hnil in *; by eapply not_elem_of_nil.
Qed.

(** X6: characters without episode take no part: leaving them out of the
    input gives the same pairs, in the same order. *)
Theorem charactersPairs_without_episodes (cwe : list WithEpisodes.t) :
  charactersPairs (filter (λ c, WithEpisodes.episodes c ≠ []) cwe)
  = charactersPairs cwe.
Proof.
  rewrite !charactersPairs_sources. f_equal. unfold pairSources.
  set (P := λ c : WithEpisodes.t, WithEpisodes.episodes c ≠ []).
  rewrite (bind_filter_nil P).
  - apply bind_ext. intros c1. apply (bind_filter_nil P).
    intros c2 Hc2. case_decide as He; [|done].
    by apply emits_episodes in He as [_ ?].
  - intros c1 Hc1. etrans; [|apply (bind_nil_const (filter P cwe))].
    apply bind_ext. intros c2. case_decide as He; [|done].
    by apply emits_episodes in He as [? _].
Qed.

(** X7: no pair is pushed exactly when no two input characters with
    different ids share an episode reference; so with no character or a
    single one there is no pair. *)
Theorem charactersPairs_nil_iff (cwe : list WithEpisodes.t) :
  charactersPairs cwe = []
  ↔ ∀ a b, a ∈ cwe → b ∈ cwe →
           WithEpisodes.id a < WithEpisodes.id b → ¬ shareEpisode a b.
Proof.
  rewrite charactersPairs_sources. split.
  - intros Hnil a b Ha Hb Hid Hshare.
    apply fmap_nil_inv in Hnil.
    assert ((a, b) ∈ pairSources cwe) as Hin.
    { apply elem_of_pairSources. split_and!; [done|done|].
      split; [done|]. by apply commonEpisodes_shareEpisode. }
    rewrite Hnil in Hin. by apply not_elem_of_nil in Hin.
  - intros Hnone. destruct (pairSources cwe) as [|[a b] l] eqn:Hsrc; [done|].
    assert ((a, b) ∈ pairSources cwe) as Hin by (rewrite Hsrc; left).
    apply elem_of_pairSources in Hin as (Ha & Hb & Hid & Hlen).
    apply commonEpisodes_shareEpisode in Hlen. by destruct (Hnone a b).
Qed.

(** X8: when neither episode list repeats a reference, the count of
    common episodes is the same whichever character comes first. *)
Theorem commonEpisodes_symmetric (c1 c2 : WithEpisodes.t) :
  NoDup (WithEpisodes.episodes c1) →
  NoDup (WithEpisodes.episodes c2) →
  length (commonEpisodes c1 c2) = length (commonEpisodes c2 c1).
Proof.
  intros H1 H2. rewrite !commonEpisodes_size by done.
  f_equal. apply (comm_L (∩)).
Qed.

Lemma commonEpisodes_symmetric_witness :
  length (commonEpisodes Sample.second Sample.third)
  = length (commonEpisodes Sample.third Sample.second).
Proof.
  apply commonEpisodes_symmetric; vm_compute; repeat constructor; set_solver.
Defined.

(** The input order only matters for the order of the pairs. *)
Lemma bind_Permutation_pointwise {A B : Type} (f g : A → list B) (l : list A) :
  (∀ a, f a ≡ₚ g a) → l ≫= f ≡ₚ l ≫= g.
Proof.
  intros Hfg. induction l as [|a l IH]; csimpl; [done|]. by rewrite Hfg, IH.
Qed.

Lemma pairSources_Permutation (cwe cwe' : list WithEpisodes.t) :
  cwe ≡ₚ cwe' → pairSources cwe ≡ₚ pairSources cwe'.
Proof.
  intros Hperm. unfold pairSources.
  etrans.
  - apply bind_Permutation_pointwise. intros c1.
    apply (bind_Permutation _ _ _ Hperm).
  - by apply bind_Permutation.
Qed.

Lemma sorted_keys_unique (l1 l2 : list Z) :
  StronglySorted (λ a b, b ≤ a) l1 → StronglySorted (λ a b, b ≤ a) l2 →
  l1 ≡ₚ l2 → l1 = l2.
Proof.
  intros H1 H2 Hperm.
  apply (StronglySorted_unique_strong (λ a b : Z, b ≤ a)); try done.
  intros a b _ _ ??. lia.
Qed.

(** X9: the order of the input characters only decides the order of the
    pairs: a permutation of the input gives a permutation of the pairs,
    and the same counts after ranking, position by position. *)
Theorem charactersPairs_input_order (cwe cwe' : list WithEpisodes.t) :
  cwe ≡ₚ cwe' →
  charactersPairs cwe ≡ₚ charactersPairs cwe'
  ∧ CharacterPair.episodes <$> sortedPairs (charactersPairs cwe)
    = CharacterPair.episodes <$> sortedPairs (charactersPairs cwe').
Proof.
  intros Hperm.
  assert (charactersPairs cwe ≡ₚ charactersPairs cwe') as Hpairs.
  { rewrite !charactersPairs_sources. by rewrite (pairSources_Permutation _ _ Hperm). }
  split; [done|].
  apply sorted_keys_unique.
  - apply (StronglySorted_fmap _ (notBelow CharacterPair.episodes)); [done|].
    apply (sort_sorted CharacterPair.episodes).
  - apply (StronglySorted_fmap _ (notBelow CharacterPair.episodes)); [done|].
    apply (sort_sorted CharacterPair.episodes).
  - unfold sortedPairs. by rewrite !sort_perm, Hpairs.
Qed.

Lemma charactersPairs_input_order_witness :
  charactersPairs [Sample.second; Sample.first; Sample.third]
  ≡ₚ charactersPairs [Sample.first; Sample.second; Sample.third].
Proof.
  apply (charactersPairs_input_order [Sample.second; Sample.first; Sample.third]
           [Sample.first; Sample.second; Sample.third]).
  apply Permutation_swap.
Defined.

(** At most one pair for two characters. *)
Lemma pairSources_subset (cwe : list WithEpisodes.t) :
  pairSources cwe ⊆ cprod cwe cwe.
Proof.
  intros [a b] (Ha & Hb & _)%elem_of_pairSources.
  apply list_elem_of_cprod. done.
Qed.

Lemma NoDup_cprod {A B : Type} (l : list A) (k : list B) :
  NoDup l → NoDup k → NoDup (cprod l k).
Proof.
  intros Hl Hk. unfold cprod, list_cprod. apply NoDup_bind; [| |done].
  - intros a a' [x y] _ _ (? & [=] & _)%list_elem_of_fmap (? & [=] & _)%list_elem_of_fmap.
    congruence.
  - intros a _. apply NoDup_fmap_2; [|done]. by intros ?? [=].
Qed.

Lemma length_cprod {A B : Type} (l : list A) (k : list B) :
  length (cprod l k) = (length l * length k)%nat.
Proof.
  unfold cprod, list_cprod. induction l as [|a l IH]; csimpl; [done|].
  by rewrite length_app, length_fmap, IH.
Qed.

(** X10: [n] distinct characters give at most [n (n - 1) / 2] pairs. *)
Theorem charactersPairs_count (cwe : list WithEpisodes.t) :
  NoDup cwe →
  (2 * length (charactersPairs cwe) + length cwe ≤ length cwe * length cwe)%nat.
Proof.
  intros Hnd. rewrite charactersPairs_sources, length_fmap.
  set (swapped := (λ s : WithEpisodes.t * WithEpisodes.t, (s.2, s.1))
                  <$> pairSources cwe).
  set (diagonal := (λ c : WithEpisodes.t, (c, c)) <$> cwe).
  assert (NoDup (pairSources cwe ++ swapped ++ diagonal)) as Hall.
  { apply NoDup_app. split_and!.
    - by apply NoDup_pairSources.
    - intros [a b] (_ & _ & Hid & _)%elem_of_pairSources.
      rewrite elem_of_app. intros [Hin|Hin].
      + apply list_elem_of_fmap in Hin as ([a' b'] & [= -> ->] & Hin).
        apply elem_of_pairSources in Hin as (_ & _ & [Hid' _]). simpl in *. lia.
      + apply list_elem_of_fmap in Hin as (c & [= -> ->] & _). lia.
    - apply NoDup_app. split_and!.
      + apply NoDup_fmap_2; [|by apply NoDup_pairSources].
        intros [??] [??] [=]. by simplify_eq.
      + intros [a b] Hin Hin'.
        apply list_elem_of_fmap in Hin as ([a' b'] & [= -> ->] & Hin).
        apply elem_of_pairSources in Hin as (_ & _ & [Hid _]).
        apply list_elem_of_fmap in Hin' as (c & [= -> ->] & _). simpl in *. lia.
      + apply NoDup_fmap_2; [|done]. by intros ?? [=]. }
  assert (pairSources cwe ++ swapped ++ diagonal ⊆ cprod cwe cwe) as Hsub.
  { intros [a b]. rewrite !elem_of_app, list_elem_of_cprod. simpl.
    intros [Hin|[Hin|Hin]].
    - apply elem_of_pairSources in Hin. naive_solver.
    - apply list_elem_of_fmap in Hin as ([a' b'] & [= -> ->] & Hin).
      apply elem_of_pairSources in Hin. naive_solver.
    - apply list_elem_of_fmap in Hin as (c & [= -> ->] & Hin). done. }
  pose proof (submseteq_length _ _ (NoDup_submseteq _ _ Hall (λ x, Hsub x))) as Hlen.
  rewrite !length_app, length_cprod in Hlen.
  unfold swapped, diagonal in Hlen. rewrite !length_fmap in Hlen. lia.
Qed.

Lemma charactersPairs_count_witness :
  (2 * length (charactersPairs [Sample.second; Sample.first; Sample.third]) + 3
   ≤ 3 * 3)%nat.
Proof.
  apply (charactersPairs_count [Sample.second; Sample.first; Sample.third]).
  repeat constructor; set_solver.
Defined.

(** ** More on [GET /top-pairs] *)

Lemma getAllCharacters_hits upstream :
  (getAllCharacters upstream).1 = hits (upstream charactersUrl).
Proof.
  rewrite getAllCharacters_eq. simpl. unfold getAllCharacters_try, hits.
  destruct (upstream _) as [message|response]; [done|].
  destruct (Z.eqb_spec (Response.status response) 404) as [H404|H404].
  - unfold Response.ok. rewrite H404. done.
  - destruct (Response.ok response); simpl; [|done].
    by destruct (Response.json response).
Qed.

Lemma top_pairs_accepted upstream query :
  accepted 0 (Query.min query) → accepted 0 (Query.max query) →
  accepted 1 (Query.limit query) →
  top_pairs upstream query
  = (Reply.mk 200
       (Reply.Pairs
          (slice0 (limitOf query)
             (filteredPairs (minEpisodesOf query) (maxEpisodesOf query)
                (rankedPairs upstream)))),
     [charactersUrl]).
Proof.
  intros Hmin Hmax Hlim.
  destruct (top_pairs_cases upstream query)
    as [(? & _)|[(? & ? & _)|[(? & ? & ? & _)|(_ & _ & _ & ->)]]]; done.
Qed.

(** X11: when the upstream answers the character load with a 404, or with
    a body that has no [results] or an empty one, a [GET /top-pairs]
    request with valid parameters is answered 200 with the empty array. *)
Theorem top_pairs_no_characters upstream query :
  match upstream charactersUrl with
  | Rejected _ => False
  | Resolved response =>
      Response.status response = 404
      ∨ ∃ data, Response.json response = Parsed data
                ∧ (ApiResponse.results data = None ∨ ApiResponse.results data = Some [])
  end →
  accepted 0 (Query.min query) → accepted 0 (Query.max query) →
  accepted 1 (Query.limit query) →
  top_pairs upstream query = (Reply.mk 200 (Reply.Pairs []), [charactersUrl]).
Proof.
  intros Hup Hmin Hmax Hlim. rewrite top_pairs_accepted by done.
  assert ((getAllCharacters upstream).1 = []) as Hload.
  { rewrite getAllCharacters_hits. unfold hits.
    destruct (upstream charactersUrl) as [|response]; [done|].
    destruct Hup as [H404|(data & -> & [-> | ->])].
    - unfold Response.ok. by rewrite H404.
    - by case_match.
    - by case_match. }
  rewrite (rankedPairs_nil _ Hload). unfold filteredPairs. simpl.
  by rewrite slice0_nil.
Qed.

Lemma top_pairs_no_characters_witness :
  top_pairs Inputs.notFound Sample.noParameters
  = (Reply.mk 200 (Reply.Pairs []), [charactersUrl]).
Proof.
  apply top_pairs_no_characters; [|exact I..].
  left. reflexivity.
Defined.

Lemma filteredPairs_Permutation minEpisodes maxEpisodes l l' :
  l ≡ₚ l' → filteredPairs minEpisodes maxEpisodes l ≡ₚ filteredPairs minEpisodes maxEpisodes l'.
Proof. intros Hperm. unfold filteredPairs. by rewrite !List_filter_stdpp, Hperm. Qed.

(** X12: the reply of [GET /top-pairs] holds the best pairs: it has
    [limit] pairs, or all the pushed pairs whose count is within the bounds
    when they are fewer; with the pairs it leaves out it makes up those
    pairs, and no pair left out has a larger count than a returned one. *)
Theorem top_pairs_best upstream query pairs :
  Reply.body (top_pairs upstream query).1 = Reply.Pairs pairs →
  ∃ rest limit,
    limitOf query = Finite limit
    ∧ 1 ≤ limit
    ∧ pairs ++ rest
      ≡ₚ filteredPairs (minEpisodesOf query) (maxEpisodesOf query)
           (charactersPairs (charactersWithEpisodes (getAllCharacters upstream).1))
    ∧ length pairs = (Z.to_nat limit `min` length (pairs ++ rest))%nat
    ∧ ∀ p q, p ∈ pairs → q ∈ rest →
             CharacterPair.episodes q ≤ CharacterPair.episodes p.
Proof.
  intros (_ & _ & Hlim & _ & ->)%top_pairs_body_Pairs.
  set (kept := filteredPairs (minEpisodesOf query) (maxEpisodesOf query)
                 (rankedPairs upstream)).
  destruct (accepted_default 1 _ 20 Hlim) as (limit & Hlimit & Hpos & _); [done|].
  fold (limitOf query) in Hlimit. rewrite Hlimit, slice0_positive by lia.
  exists (drop (Z.to_nat limit) kept), limit. split_and!; [done|done|..].
  - rewrite take_drop. apply filteredPairs_Permutation.
    unfold rankedPairs, sortedPairs. apply sort_perm.
  - by rewrite take_drop, length_take.
  - assert (StronglySorted (notBelow CharacterPair.episodes) kept) as Hsorted.
    { eapply StronglySorted_sublist; [apply filteredPairs_sublist|].
      apply (sort_sorted CharacterPair.episodes). }
    rewrite <-(take_drop (Z.to_nat limit) kept) in Hsorted at 1.
    intros p q Hp Hq.
    exact (StronglySorted_app_1_elem_of _ _ _ _ _ Hsorted Hp Hq).
Qed.

Lemma top_pairs_best_witness :
  ∃ rest limit,
    limitOf (Query.mk None None None (Some "1")) = Finite limit
    ∧ length [Sample.rickMorty] = (Z.to_nat limit `min` length ([Sample.rickMorty] ++ rest))%nat.
Proof.
  destruct (top_pairs_best Inputs.threeCharacters (Query.mk None None None (Some "1"))
              [Sample.rickMorty]) as (rest & limit & Hlimit & _ & _ & Hlen & _).
  - reflexivity.
  - by exists rest, limit.
Defined.

(** X13: a [max] below [min] is no error: the reply is 200 with the empty
    array. *)
Theorem top_pairs_empty_range upstream query mn mx :
  accepted 0 (Query.min query) → accepted 0 (Query.max query) →
  accepted 1 (Query.limit query) →
  minEpisodesOf query = Finite mn → maxEpisodesOf query = Finite mx → mx < mn →
  top_pairs upstream query = (Reply.mk 200 (Reply.Pairs []), [charactersUrl]).
Proof.
  intros Hmin Hmax Hlim Hmn Hmx Hlt. rewrite top_pairs_accepted by done.
  rewrite Hmn, Hmx.
  assert (filteredPairs (Finite mn) (Finite mx) (rankedPairs upstream) = []) as ->.
  { unfold filteredPairs. generalize (rankedPairs upstream) as l.
    induction l as [|p l IH]; [done|]. simpl.
    destruct (Z.leb_spec mn (CharacterPair.episodes p));
      destruct (Z.leb_spec (CharacterPair.episodes p) mx); simpl; try done. lia. }
  by rewrite slice0_nil.
Qed.

Lemma top_pairs_empty_range_witness :
  top_pairs Inputs.threeCharacters (Query.mk None (Some "2") (Some "1") None)
  = (Reply.mk 200 (Reply.Pairs []), [charactersUrl]).
Proof.
  apply (top_pairs_empty_range _ _ 2 1);
    [by vm_compute|by vm_compute|exact I|reflexivity|reflexivity|lia].
Defined.

(** X14: with the same [min] and [max], the reply under a limit is a
    prefix of the reply under a larger limit. *)
Theorem top_pairs_limit_prefix upstream query query' z z' pairs pairs' :
  Query.min query = Query.min query' →
  Query.max query = Query.max query' →
  limitOf query = Finite z → limitOf query' = Finite z' → z ≤ z' →
  Reply.body (top_pairs upstream query).1 = Reply.Pairs pairs →
  Reply.body (top_pairs upstream query').1 = Reply.Pairs pairs' →
  pairs `prefix_of` pairs'.
Proof.
  intros Hmin Hmax Hz Hz' Hle.
  intros (_ & _ & Hlim & _ & ->)%top_pairs_body_Pairs.
  intros (_ & _ & Hlim' & _ & ->)%top_pairs_body_Pairs.
  unfold minEpisodesOf, maxEpisodesOf. rewrite Hmin, Hmax, Hz, Hz'.
  assert (1 ≤ z ∧ 1 ≤ z') as [??].
  { unfold limitOf in Hz, Hz'. split.
    - destruct (Query.limit query) as [raw|]; simpl in *; [|by simplify_eq].
      rewrite Hz in Hlim. done.
    - destruct (Query.limit query') as [raw|]; simpl in *; [|by simplify_eq].
      rewrite Hz' in Hlim'. done. }
  rewrite !slice0_positive by lia.
  set (kept := filteredPairs _ _ _).
  replace (take (Z.to_nat z) kept) with (take (Z.to_nat z) (take (Z.to_nat z') kept))
    by (rewrite take_take; f_equal; lia).
  apply prefix_take.
Qed.

Lemma top_pairs_limit_prefix_witness :
  [Sample.rickMorty] `prefix_of` [Sample.rickMorty; Sample.rickSummer].
Proof.
  apply (top_pairs_limit_prefix Inputs.threeCharacters
           (Query.mk None None None (Some "1")) (Query.mk None None None (Some "2"))
           1 2); (reflexivity || lia).
Defined.

Lemma filteredPairs_min_one maxEpisodes l :
  (∀ p, p ∈ l → 1 ≤ CharacterPair.episodes p) →
  filteredPairs (Finite 0) maxEpisodes l = filteredPairs (Finite 1) maxEpisodes l.
Proof.
  intros Hl. unfold filteredPairs. apply filter_ext_in. intros p Hp.
  assert (1 ≤ CharacterPair.episodes p) by (apply Hl; by apply list_elem_of_In).
  unfold number_ge. simpl.
  destruct (Z.leb_spec 0 (CharacterPair.episodes p));
    destruct (Z.leb_spec 1 (CharacterPair.episodes p)); try lia. done.
Qed.

Lemma rankedPairs_positive upstream p :
  p ∈ rankedPairs upstream → 1 ≤ CharacterPair.episodes p.
Proof.
  unfold rankedPairs. rewrite elem_of_sortedPairs, charactersPairs_sources.
  intros ([a b] & -> & Hin)%list_elem_of_fmap.
  apply elem_of_pairSources in Hin as (_ & _ & _ & Hlen). simpl. lia.
Qed.

(** X15: every pair has a count of 1 at least, so a [min] of 1 gives the
    reply of a [min] of 0, which is the default. *)
Theorem top_pairs_min_zero_one upstream query query' :
  accepted 0 (Query.max query) → accepted 1 (Query.limit query) →
  Query.max query = Query.max query' →
  Query.limit query = Query.limit query' →
  minEpisodesOf query = Finite 0 → minEpisodesOf query' = Finite 1 →
  top_pairs upstream query = top_pairs upstream query'.
Proof.
  intros Hmax Hlim Hmaxeq Hlimeq Hmn Hmn'.
  assert (∀ q m, minEpisodesOf q = Finite m → 0 ≤ m → accepted 0 (Query.min q)) as Hacc.
  { intros q m Hq Hm. unfold minEpisodesOf in Hq.
    destruct (Query.min q) as [raw|]; [|done]. simpl in Hq.
    apply accepted_Some. exists m. done. }
  rewrite !top_pairs_accepted;
    rewrite <-?Hmaxeq, <-?Hlimeq; try done; try (by eapply Hacc).
  unfold maxEpisodesOf, limitOf. rewrite <-Hmaxeq, <-Hlimeq, Hmn, Hmn'.
  rewrite filteredPairs_min_one; [done|]. apply rankedPairs_positive.
Qed.

Lemma top_pairs_min_zero_one_witness :
  top_pairs Inputs.threeCharacters Sample.noParameters
  = top_pairs Inputs.threeCharacters (Query.mk None (Some "1") None None).
Proof.
  apply top_pairs_min_zero_one; (exact I || reflexivity).
Defined.

(** ** Negative parameters *)

Lemma mathInt_nonneg acc digits :
  allDigits digits = true → 0 ≤ acc → 0 ≤ mathInt acc digits.
Proof.
  revert acc. induction digits as [|c digits IH]; intros acc Hd Hacc; simpl in *; [done|].
  apply andb_true_iff in Hd as [Hc%isDigit_byte Hd].
  apply IH; [done|]. unfold digitValue. lia.
Qed.

Lemma parseInt_minus digits :
  allDigits digits = true → digits ≠ EmptyString →
  parseInt (String "-" digits) = toNumber (- mathInt 0 digits).
Proof.
  intros Hd Hne. unfold parseInt.
  assert (trimStart (String "-" digits) = String "-" digits) as ->.
  { destruct digits as [|c2 [|c3 digits]]; reflexivity. }
  rewrite digitsPrefix_allDigits by done.
  destruct digits as [|c digits]; [done|].
  f_equal; lia.
Qed.

Lemma negative_not_accepted lower digits :
  0 ≤ lower → allDigits digits = true → digits ≠ EmptyString →
  mathInt 0 digits ≠ 0 → ¬ accepted lower (Some (String "-" digits)).
Proof.
  intros Hlower Hd Hne Hnz (z & Hz & Hle)%accepted_Some.
  rewrite parseInt_minus in Hz by done.
  pose proof (mathInt_nonneg 0 digits Hd) as Hpos.
  unfold toNumber in Hz. repeat case_match; simplify_eq. lia.
Qed.

(** X16: a [min], [max] or [limit] written as a minus sign and the digits
    of a non-zero integer is rejected with the 400 reply of its
    parameter, and no upstream call is made. *)
Theorem top_pairs_rejects_negative upstream query digits :
  allDigits digits = true → digits ≠ EmptyString → mathInt 0 digits ≠ 0 →
  (Query.min query = Some (String "-" digits) →
   top_pairs upstream query
   = (Reply.mk 400
        (Reply.Error "Query parameter 'min' must be a non-negative integer"), []))
  ∧ (accepted 0 (Query.min query) → Query.max query = Some (String "-" digits) →
     top_pairs upstream query
     = (Reply.mk 400
          (Reply.Error "Query parameter 'max' must be a non-negative integer"), []))
  ∧ (accepted 0 (Query.min query) → accepted 0 (Query.max query) →
     Query.limit query = Some (String "-" digits) →
     top_pairs upstream query
     = (Reply.mk 400
          (Reply.Error "Query parameter 'limit' must be a positive integer"), [])).
Proof.
  intros Hd Hne Hnz.
  pose proof (negative_not_accepted 0 digits ltac:(lia) Hd Hne Hnz) as H0.
  pose proof (negative_not_accepted 1 digits ltac:(lia) Hd Hne Hnz) as H1.
  split_and!.
  - intros Hq. rewrite <-Hq in H0.
    destruct (top_pairs_cases upstream query)
      as [(? & ->)|[(? & ? & _)|[(? & ? & ? & _)|(? & ? & ? & _)]]]; done.
  - intros Hmin Hq. rewrite <-Hq in H0.
    destruct (top_pairs_cases upstream query)
      as [(? & _)|[(? & ? & ->)|[(? & ? & ? & _)|(? & ? & ? & _)]]]; done.
  - intros Hmin Hmax Hq. rewrite <-Hq in H1.
    destruct (top_pairs_cases upstream query)
      as [(? & _)|[(? & ? & _)|[(? & ? & ? & ->)|(? & ? & ? & _)]]]; done.
Qed.

Lemma top_pairs_rejects_negative_witness :
  top_pairs Inputs.threeCharacters (Query.mk None (Some "-3") None None)
  = (Reply.mk 400
       (Reply.Error "Query parameter 'min' must be a non-negative integer"), []).
Proof.
  refine (proj1 (top_pairs_rejects_negative Inputs.threeCharacters
                   (Query.mk None (Some "-3") None None) "3" _ _ _) _);
    (reflexivity || discriminate).
Defined.
